(** * taomu-store: the dispatch / subscription engine of [Store]

    A shallow embedding of [src/lib/taomu-store.tsx] (class [Store]) and the
    properties of its dispatch pipeline.

    Modelling conventions.
    - A JavaScript object is the list of its own enumerable properties in
      the order in which [Object.keys], [for ... in], [Object.assign] and
      the spread visit them ([obj]): the names that are array indices first,
      in ascending order, then the other names in the order they were
      created.  Property names are strings, and a string is the sequence of
      its characters.
    - Every object is an ordinary object: it is extensible and its
      properties are writable, its prototype is [Object.prototype], which
      nobody has changed, and it has no own property named [__proto__].
      Reading a property that an object does not have itself therefore
      finds the members of [Object.prototype] ([obj_read]), and so does the
      lookup [this.actions?.[key]] ([callee_of]).
    - The keys given to [subscribe] and [getState] are values ([rawkey]):
      strings or numbers.  Number keys are integers that JavaScript prints
      in plain decimal notation; as a property name a number is that
      notation ([key_name]), as a key of the [Map] of listeners it is
      itself.
    - Objects that the code mutates in place, or whose identity matters,
      live in a heap and are handled through their location: the state
      object held in [this.state] and the [nextState] argument of
      [dispatch] (the pre-dispatch hook's result is merged into it in place).
      Objects that are only read are passed by their contents.
    - Callbacks whose result is discarded (listeners, [onChanged],
      [afterDispatch]) are identities; calling one emits an event.  Callbacks
      whose result is used ([beforeDispatch], the registered [actions]) are
      functions of their arguments, and the own properties of the actions
      object are such functions.  No callback re-enters the store or raises
      an exception.
    - Every operation runs in the monad [M]: it reads and updates the
      configuration (the store instance and the heap) and emits the events
      it causes, in order.  The one exception that the code can raise by
      itself, the [TypeError] of a method of [Object.prototype] called as an
      action, is an event, and ends the dispatch it occurs in.
    - Batch numbers are integers: the counter stays in the range where
      [++] on a JavaScript number is exact. *)

From Stdlib Require Import ZArith List Bool Lia Ascii.
From stdpp Require Import base option list gmap strings pretty.

(** ** Values and objects *)

(** Heap locations and property names. *)
Abbreviation loc := nat (only parsing).
Abbreviation key := string (only parsing).

(** Field values.  [VObj l] is a reference to the object at location [l];
    [VNaN] is the one number that is not strictly equal to itself;
    [VInherited name] is the value of [Object.prototype[name]] (one of its
    methods, or for [__proto__] the prototype object itself); [VAction name]
    is the function that the actions object holds under [name]. *)
Inductive value :=
| VUndefined
| VNull
| VBool (b : bool)
| VNum (n : Z)
| VNaN
| VStr (s : string)
| VObj (l : loc)
| VInherited (name : string)
| VAction (name : string).

(** [a === b] *)
Definition strict_eq (a b : value) : bool :=
  match a, b with
  | VUndefined, VUndefined => true
  | VNull, VNull => true
  | VBool x, VBool y => Bool.eqb x y
  | VNum x, VNum y => (x =? y)%Z
  | VStr x, VStr y => String.eqb x y
  | VObj x, VObj y => (x =? y)%nat
  | VInherited x, VInherited y => String.eqb x y
  | VAction x, VAction y => String.eqb x y
  | _, _ => false
  end.

(** [a !== b] *)
Definition strict_ne (a b : value) : bool := negb (strict_eq a b).

Abbreviation obj := (list (string * value)).

(** [Object.keys(o)] / the keys visited by [for (k in o)] that pass
    [hasOwnProperty]. *)
Definition obj_keys (o : obj) : list key := map fst o.

(** The own property [k] of [o], if any. *)
Fixpoint obj_get (k : key) (o : obj) : option value :=
  match o with
  | [] => None
  | (k', v) :: r => if decide (k = k') then Some v else obj_get k r
  end.

(** *** [Object.prototype] *)

(** The methods of [Object.prototype]. *)
Inductive method :=
| Constructor
| DefineGetter
| DefineSetter
| HasOwnProperty
| LookupGetter
| LookupSetter
| IsPrototypeOf
| PropertyIsEnumerable
| ToString
| ValueOf
| ToLocaleString.

Definition prototype_methods : list (string * method) :=
  [ ("constructor", Constructor);
    ("__defineGetter__", DefineGetter);
    ("__defineSetter__", DefineSetter);
    ("hasOwnProperty", HasOwnProperty);
    ("__lookupGetter__", LookupGetter);
    ("__lookupSetter__", LookupSetter);
    ("isPrototypeOf", IsPrototypeOf);
    ("propertyIsEnumerable", PropertyIsEnumerable);
    ("toString", ToString);
    ("valueOf", ValueOf);
    ("toLocaleString", ToLocaleString) ].

(** The method of [Object.prototype] named [k], if there is one. *)
Fixpoint assoc {A} (k : string) (l : list (string * A)) : option A :=
  match l with
  | [] => None
  | (k', a) :: r => if decide (k = k') then Some a else assoc k r
  end.

Definition inherited_method (k : key) : option method := assoc k prototype_methods.

(** The value an ordinary object has for a name it does not own:
    [Object.prototype] has its methods and the accessor [__proto__], whose
    getter returns the prototype. *)
Definition inherited_value (k : key) : value :=
  match inherited_method k with
  | Some _ => VInherited k
  | None => if decide (k = "__proto__") then VInherited k else VUndefined
  end.

(** [o[k]]: the own property, else what the prototype has, else
    [undefined]. *)
Definition obj_read (k : key) (o : obj) : value :=
  match obj_get k o with
  | Some v => v
  | None => inherited_value k
  end.

(** *** The order of properties *)

Definition digit (a : ascii) : option N :=
  let n := N_of_ascii a in
  if (48 <=? n)%N && (n <=? 57)%N then Some (n - 48)%N else None.

Fixpoint digits (s : string) (acc : N) : option N :=
  match s with
  | EmptyString => Some acc
  | String a r =>
      match digit a with
      | Some d => digits r (10 * acc + d)%N
      | None => None
      end
  end.

(** The array index that a property name denotes: the name is the
    canonical decimal notation of an integer from 0 to 2^32 - 2. *)
Definition array_index (k : key) : option N :=
  match k with
  | EmptyString => None
  | String a r =>
      match digits k 0 with
      | Some n =>
          if (negb (Ascii.eqb a "0"%char) || String.eqb r "") && (n <? 4294967295)%N
          then Some n else None
      | None => None
      end
  end.

(** Whether a new property [k] is enumerated before the property [k']:
    array indices in ascending order come first; among the other names the
    older property comes first. *)
Definition key_before (k k' : key) : bool :=
  match array_index k, array_index k' with
  | Some i, Some j => (i <? j)%N
  | Some _, None => true
  | None, _ => false
  end.

(** The names of an object in enumeration order. *)
Fixpoint keys_ordered (ks : list key) : bool :=
  match ks with
  | [] => true
  | k :: r => forallb (fun k' => negb (key_before k' k)) r && keys_ordered r
  end.

(** Writing a property that the object has: it keeps its place. *)
Fixpoint obj_update (k : key) (v : value) (o : obj) : obj :=
  match o with
  | [] => []
  | (k', v') :: r =>
      if decide (k = k') then (k, v) :: r else (k', v') :: obj_update k v r
  end.

(** Creating a property: it takes its place in the enumeration order. *)
Fixpoint obj_insert (k : key) (v : value) (o : obj) : obj :=
  match o with
  | [] => [(k, v)]
  | (k', v') :: r =>
      if key_before k k' then (k, v) :: o else (k', v') :: obj_insert k v r
  end.

(** [o[k] = v] *)
Definition obj_set (k : key) (v : value) (o : obj) : obj :=
  match obj_get k o with
  | Some _ => obj_update k v o
  | None => obj_insert k v o
  end.

(** [Object.assign(target, src)] *)
Definition obj_assign (target src : obj) : obj :=
  fold_left (fun t kv => obj_set kv.1 kv.2 t) src target.

(** [{ ...a, ...b }] *)
Definition obj_spread (a b : obj) : obj :=
  obj_assign (obj_assign [] a) b.

(** The own enumerable properties of a string: its characters, under their
    positions. *)
Definition string_props (s : string) : obj :=
  imap (fun i a => (pretty i, VStr (String a ""))) (String.list_ascii_of_string s).

(** A [Set] in insertion order. *)
Definition set_add {A} `{EqDecision A} (x : A) (s : list A) : list A :=
  if decide (x ∈ s) then s else s ++ [x].

Definition set_delete {A} `{EqDecision A} (x : A) (s : list A) : list A :=
  filter (fun y => y ≠ x) s.

(** *** Keys as values *)

(** A key as the callers of [subscribe] and [getState] pass it: a string
    or a number ([keyof StateT]). *)
Inductive rawkey :=
| KStr (s : string)
| KNum (n : Z).

#[global] Instance rawkey_eq_dec : EqDecision rawkey.
Proof. solve_decision. Defined.

#[global] Instance rawkey_countable : Countable rawkey.
Proof.
  refine (inj_countable'
            (fun k => match k with KStr s => inl s | KNum n => inr n end)
            (fun x => match x with inl s => KStr s | inr n => KNum n end) _).
  by intros [].
Defined.

(** The property name that a key denotes in [o[key]]. *)
Definition key_name (k : rawkey) : key :=
  match k with
  | KStr s => s
  | KNum n => pretty n
  end.

(** Truthiness of a key: the empty string and the number 0 are falsy. *)
Definition key_truthy (k : rawkey) : bool :=
  match k with
  | KStr s => negb (String.eqb s "")
  | KNum n => negb (n =? 0)%Z
  end.

(** ** Callbacks, options and the store record *)

(** Identities of callbacks. *)
Abbreviation Listener := nat (only parsing).
Abbreviation Callback := nat (only parsing).

(** An optional property of an options object: missing, present with the
    value [undefined], or present with a value. *)
Inductive optional (A : Type) :=
| Omitted
| Undefined
| Defined (a : A).
Arguments Omitted {A}.
Arguments Undefined {A}.
Arguments Defined {A} a.

(** What [Object.assign] does to one property of the target. *)
Definition assign_prop {A} (cur new : optional A) : optional A :=
  match new with
  | Omitted => cur
  | _ => new
  end.

(** [interface DispatchOptions] *)
Record DispatchOptions := {
  check : optional bool;
  onChanged : optional Callback;
}.

Definition options_assign (target src : DispatchOptions) : DispatchOptions :=
  {| check := assign_prop (check target) (check src);
     onChanged := assign_prop (onChanged target) (onChanged src) |}.

(** Truthiness of [optionsH.check]. *)
Definition check_on (o : DispatchOptions) : bool :=
  match check o with
  | Defined b => b
  | _ => false
  end.

(** The second parameter of [dispatch]: omitted, a bare callback, or an
    options object. *)
Inductive dispatch_arg :=
| ArgNone
| ArgCallback (cb : Callback)
| ArgOptions (o : DispatchOptions).

(** The result of [beforeDispatch]: [boolean | Partial<StateT>]. *)
Inductive hook_result :=
| HBool (b : bool)
| HObject (o : obj).

(** An entry of [actions]: [(data, states) => record]. *)
Abbreviation Action := (value -> obj -> obj) (only parsing).

(** [beforeDispatch(dispatchBatch, nextState, options)] *)
Abbreviation BeforeDispatch := (Z -> obj -> DispatchOptions -> hook_result) (only parsing).

(** The fields of [Store].  [actionsObject] is the optional constructor
    argument [actions]: the own properties of the object, in their order,
    or [None] when no object was given. *)
Record Store := {
  state : loc;
  actionsObject : option (list (key * Action));
  defaultDispatchOptions : DispatchOptions;
  listeners : gmap rawkey (list Listener);
  dispatchBatch : Z;
  dispatchBatchOptionsMap : gmap Z DispatchOptions;
  takeOverDispatch : bool;
  beforeDispatch : option BeforeDispatch;
  afterDispatch : option Callback;
}.

(** The registered actions: the own properties of the actions object, by
    name. *)
Definition actions (s : Store) : gmap key Action :=
  list_to_map (default [] (actionsObject s)).

(** [new Store(state, actions)] *)
Definition newStore (st : loc) (acts : option (list (key * Action))) : Store :=
  {| state := st;
     actionsObject := acts;
     defaultDispatchOptions := {| check := Defined false; onChanged := Omitted |};
     listeners := ∅;
     dispatchBatch := 0;
     dispatchBatchOptionsMap := ∅;
     takeOverDispatch := false;
     beforeDispatch := None;
     afterDispatch := None |}.

Definition set_state (l : loc) (s : Store) : Store :=
  {| state := l; actionsObject := actionsObject s;
     defaultDispatchOptions := defaultDispatchOptions s;
     listeners := listeners s; dispatchBatch := dispatchBatch s;
     dispatchBatchOptionsMap := dispatchBatchOptionsMap s;
     takeOverDispatch := takeOverDispatch s;
     beforeDispatch := beforeDispatch s; afterDispatch := afterDispatch s |}.

Definition set_listeners (ls : gmap rawkey (list Listener)) (s : Store) : Store :=
  {| state := state s; actionsObject := actionsObject s;
     defaultDispatchOptions := defaultDispatchOptions s;
     listeners := ls; dispatchBatch := dispatchBatch s;
     dispatchBatchOptionsMap := dispatchBatchOptionsMap s;
     takeOverDispatch := takeOverDispatch s;
     beforeDispatch := beforeDispatch s; afterDispatch := afterDispatch s |}.

Definition set_dispatchBatch (b : Z) (s : Store) : Store :=
  {| state := state s; actionsObject := actionsObject s;
     defaultDispatchOptions := defaultDispatchOptions s;
     listeners := listeners s; dispatchBatch := b;
     dispatchBatchOptionsMap := dispatchBatchOptionsMap s;
     takeOverDispatch := takeOverDispatch s;
     beforeDispatch := beforeDispatch s; afterDispatch := afterDispatch s |}.

Definition set_dispatchBatchOptionsMap (m : gmap Z DispatchOptions) (s : Store) : Store :=
  {| state := state s; actionsObject := actionsObject s;
     defaultDispatchOptions := defaultDispatchOptions s;
     listeners := listeners s; dispatchBatch := dispatchBatch s;
     dispatchBatchOptionsMap := m;
     takeOverDispatch := takeOverDispatch s;
     beforeDispatch := beforeDispatch s; afterDispatch := afterDispatch s |}.

Definition set_takeOverDispatch (b : bool) (s : Store) : Store :=
  {| state := state s; actionsObject := actionsObject s;
     defaultDispatchOptions := defaultDispatchOptions s;
     listeners := listeners s; dispatchBatch := dispatchBatch s;
     dispatchBatchOptionsMap := dispatchBatchOptionsMap s;
     takeOverDispatch := b;
     beforeDispatch := beforeDispatch s; afterDispatch := afterDispatch s |}.

Definition set_beforeDispatch (f : option BeforeDispatch) (s : Store) : Store :=
  {| state := state s; actionsObject := actionsObject s;
     defaultDispatchOptions := defaultDispatchOptions s;
     listeners := listeners s; dispatchBatch := dispatchBatch s;
     dispatchBatchOptionsMap := dispatchBatchOptionsMap s;
     takeOverDispatch := takeOverDispatch s;
     beforeDispatch := f; afterDispatch := afterDispatch s |}.

Definition set_afterDispatch (f : option Callback) (s : Store) : Store :=
  {| state := state s; actionsObject := actionsObject s;
     defaultDispatchOptions := defaultDispatchOptions s;
     listeners := listeners s; dispatchBatch := dispatchBatch s;
     dispatchBatchOptionsMap := dispatchBatchOptionsMap s;
     takeOverDispatch := takeOverDispatch s;
     beforeDispatch := beforeDispatch s; afterDispatch := f |}.

Definition set_defaultDispatchOptions (o : DispatchOptions) (s : Store) : Store :=
  {| state := state s; actionsObject := actionsObject s;
     defaultDispatchOptions := o;
     listeners := listeners s; dispatchBatch := dispatchBatch s;
     dispatchBatchOptionsMap := dispatchBatchOptionsMap s;
     takeOverDispatch := takeOverDispatch s;
     beforeDispatch := beforeDispatch s; afterDispatch := afterDispatch s |}.

(** ** Configurations, events and the monad *)

Record config := {
  store : Store;
  heap : list obj;
}.

(** What the store does to the outside world, in order. *)
Inductive event :=
| CallBeforeDispatch (batch : Z) (nextState : loc) (contents : obj) (options : DispatchOptions)
| CallAction (k : key) (data : value) (states : loc) (contents : obj)
| RaiseTypeError (k : key)
| CallListener (k : key) (l : Listener)
| CallOnChanged (cb : Callback) (states : loc)
| Warn (batch : Z)
| CallAfterDispatch (cb : Callback) (changeState : obj).

Definition M (A : Type) : Type := config -> A * config * list event.

Definition ret {A} (a : A) : M A := fun c => (a, c, []).

Definition bind {A B} (m : M A) (f : A -> M B) : M B :=
  fun c =>
    let '(a, c1, e1) := m c in
    let '(b, c2, e2) := f a c1 in
    (b, c2, e1 ++ e2).

Notation "'let!' x ':=' m 'in' f" := (bind m (fun x => f))
  (at level 10, x name, m at level 100, f at level 200).
Notation "'do!' m 'in' f" := (bind m (fun _ => f))
  (at level 10, m at level 100, f at level 200).

Definition emit (e : event) : M unit := fun c => (tt, c, [e]).

Definition getStore : M Store := fun c => (store c, c, []).

Definition modifyStore (f : Store -> Store) : M unit :=
  fun c => (tt, {| store := f (store c); heap := heap c |}, []).

(** The contents of the object at [l]. *)
Definition heap_get (h : list obj) (l : loc) : obj := default [] (h !! l).

Definition getHeap : M (list obj) := fun c => (heap c, c, []).

Definition readObj (l : loc) : M obj := fun c => (heap_get (heap c) l, c, []).

Definition writeObj (l : loc) (o : obj) : M unit :=
  fun c => (tt, {| store := store c; heap := <[l := o]> (heap c) |}, []).

(** A new object: the next free location. *)
Definition allocObj (o : obj) : M loc :=
  fun c => (length (heap c), {| store := store c; heap := heap c ++ [o] |}, []).

Arguments ret {A} a c /.
Arguments emit e c /.
Arguments getStore c /.
Arguments getHeap c /.
Arguments modifyStore f c /.
Arguments readObj l c /.
Arguments writeObj l o c /.
Arguments allocObj o c /.

Definition result {A} (r : A * config * list event) : A := r.1.1.
Definition final {A} (r : A * config * list event) : config := r.1.2.
Definition events {A} (r : A * config * list event) : list event := r.2.

(** [xs.forEach(f)] *)
Fixpoint forEach {A} (xs : list A) (f : A -> M unit) : M unit :=
  match xs with
  | [] => ret tt
  | x :: r => do! f x in forEach r f
  end.

(** A loop that updates a local variable,
    [xs.forEach(x => { acc = f(acc, x) })], and that an exception raised in
    its body ends ([None]). *)
Fixpoint foldM {A B} (f : B -> A -> M (option B)) (xs : list A) (acc : B)
  : M (option B) :=
  match xs with
  | [] => ret (Some acc)
  | x :: r =>
      let! acc' := f acc x in
      match acc' with
      | Some acc' => foldM f r acc'
      | None => ret None
      end
  end.

(** ** The operations of [Store] *)

(** [subscribe(listener, key)].  The [Map] of listeners is keyed by the
    value of [key] as it is passed.  The [Set] of a key is created once and
    never replaced, so the closure that [subscribe] returns deletes from the
    set that the registry holds for [key]: it is [unsubscribe listener key]. *)
Definition subscribe (listener : Listener) (k : rawkey) : M unit :=
  modifyStore (fun s =>
    let ls := default [] (listeners s !! k) in
    set_listeners (<[k := set_add listener ls]> (listeners s)) s).

Definition unsubscribe (listener : Listener) (k : rawkey) : M unit :=
  modifyStore (fun s =>
    set_listeners (alter (set_delete listener) k (listeners s)) s).

(** [getState] returns a field value or the state object itself. *)
Inductive getState_result :=
| WholeState (l : loc)
| FieldValue (v : value).

Definition getState (k : option rawkey) : M getState_result :=
  let! s := getStore in
  match k with
  | Some k =>
      if key_truthy k then
        let! st := readObj (state s) in
        ret (FieldValue (obj_read (key_name k) st))
      else ret (WholeState (state s))
  | None => ret (WholeState (state s))
  end.

(** Lines 110 and 114-118 of [dispatch]: the defaults, then the caller's
    options. *)
Definition effectiveOptions (defaults : DispatchOptions) (options : dispatch_arg)
  : DispatchOptions :=
  let optionsH := defaults in
  match options with
  | ArgCallback cb => {| check := check optionsH; onChanged := Defined cb |}
  | ArgOptions o => options_assign optionsH o
  | ArgNone => optionsH
  end.

(** [executeListeners(dispatchBatch, changedState, options)].  The keys
    that [for ... in] yields are strings, and it is with the string that the
    [Map] of listeners is asked. *)
Definition executeListeners (batch : Z) (changedState : obj)
    (options : option DispatchOptions) : M unit :=
  let! optionsH :=
    match options with
    | Some o => ret (Some o)
    | None =>
        let! s := getStore in
        let found := dispatchBatchOptionsMap s !! batch in
        do! modifyStore (fun s =>
              set_dispatchBatchOptionsMap
                (delete batch (dispatchBatchOptionsMap s)) s) in
        ret found
    end in
  do! forEach (obj_keys changedState) (fun realChangeKey =>
        let! s := getStore in
        match listeners s !! KStr realChangeKey with
        | Some ls => forEach ls (fun listener => emit (CallListener realChangeKey listener))
        | None => ret tt
        end) in
  do! match optionsH with
      | Some o =>
          match onChanged o with
          | Defined cb => let! s := getStore in emit (CallOnChanged cb (state s))
          | _ => ret tt
          end
      | None => emit (Warn batch)
      end in
  let! s := getStore in
  match afterDispatch s with
  | Some cb => emit (CallAfterDispatch cb changedState)
  | None => ret tt
  end.

(** Lines 122-126 of [dispatch].  The result tells whether the dispatch
    goes on ([false]: the hook returned [false]). *)
Definition runBeforeDispatch (nextState : loc) (optionsH : DispatchOptions) : M bool :=
  let! s := getStore in
  match beforeDispatch s with
  | Some hook =>
      let! ns := readObj nextState in
      do! emit (CallBeforeDispatch (dispatchBatch s) nextState ns optionsH) in
      match hook (dispatchBatch s) ns optionsH with
      | HBool false => ret false
      | HBool true => ret true
      | HObject res => do! writeObj nextState (obj_assign ns res) in ret true
      end
  | None => ret true
  end.

(** What [this.actions?.[key]] is when it is a function: a registered
    action (an own property of the actions object), or else a method that
    the actions object inherits from [Object.prototype].  Without an actions
    object the lookup is [undefined]. *)
Inductive callee :=
| Registered (action : Action)
| Inherited (m : method).

Definition callee_of (s : Store) (k : key) : option callee :=
  match actions s !! k with
  | Some action => Some (Registered action)
  | None =>
      match actionsObject s with
      | Some _ => Inherited <$> inherited_method k
      | None => None
      end
  end.

(** The own enumerable properties that [Object.assign] copies from a value
    that is not a record: the characters of a string, the properties of an
    object, nothing otherwise. *)
Definition own_props (h : list obj) (v : value) : obj :=
  match v with
  | VStr s => string_props s
  | VObj l => heap_get h l
  | _ => []
  end.

(** [this.actions[key](nextValue, this.state)] for an inherited method,
    as the properties that [Object.assign] copies from what it returns;
    [None] when the call raises a [TypeError].
    - [valueOf] returns the actions object itself;
    - [toString] returns ["[object Object]"], and [toLocaleString] what
      [this.toString()] returns: the same, unless an action is registered
      under [toString], which the method then calls without arguments (the
      missing state is rendered as the empty record; the call is the
      method's, and is no event of the store);
    - [constructor] is [Object]: it returns its first argument as an
      object;
    - [hasOwnProperty], [isPrototypeOf] and [propertyIsEnumerable] return a
      boolean, [__lookupGetter__] and [__lookupSetter__] a function or
      [undefined] (where they take their argument for a property name, an
      object converts through the [toString] it inherits);
    - [__defineGetter__] and [__defineSetter__] reject their second
      argument, the state object, which is not callable. *)
Definition call_inherited (s : Store) (h : list obj) (m : method) (nextValue : value)
  : option obj :=
  match m with
  | ValueOf =>
      Some (map (fun entry => (entry.1, VAction entry.1)) (default [] (actionsObject s)))
  | ToString => Some (string_props "[object Object]")
  | ToLocaleString =>
      match actions s !! "toString" with
      | Some toString => Some (toString VUndefined [])
      | None => Some (string_props "[object Object]")
      end
  | Constructor => Some (own_props h nextValue)
  | HasOwnProperty | IsPrototypeOf | PropertyIsEnumerable => Some []
  | LookupGetter | LookupSetter => Some []
  | DefineGetter | DefineSetter => None
  end.

(** The body of [changeKeys.forEach] (lines 129-140): [changedState] with
    what [key] adds to it, or [None] when the call of line 132 raises. *)
Definition resolveKey (nextState : loc) (optionsH : DispatchOptions)
    (changedState : obj) (k : key) : M (option obj) :=
  let! ns := readObj nextState in
  let nextValue := obj_read k ns in
  let! s := getStore in
  match callee_of s k with
  | Some (Registered action) =>
      let! st := readObj (state s) in
      do! emit (CallAction k nextValue (state s) st) in
      ret (Some (obj_assign changedState (action nextValue st)))
  | Some (Inherited m) =>
      let! h := getHeap in
      match call_inherited s h m nextValue with
      | Some returned => ret (Some (obj_assign changedState returned))
      | None => do! emit (RaiseTypeError k) in ret None
      end
  | None =>
      if check_on optionsH then
        let! st := readObj (state s) in
        let currentValue := obj_read k st in
        if strict_ne nextValue currentValue
        then ret (Some (obj_set k nextValue changedState))
        else ret (Some changedState)
      else ret (Some (obj_set k nextValue changedState))
  end.

(** Lines 128-141: the changed-set of a dispatch. *)
Definition computeChangedState (nextState : loc) (optionsH : DispatchOptions)
    (changeKeys : list key) : M (option obj) :=
  foldM (resolveKey nextState optionsH) changeKeys [].

(** [dispatch(nextState, options)].  The source returns nothing; the model
    returns the local [changedState] so that statements can name it, and
    [None] when the dispatch does not get to line 143: the hook returned
    [false], or an exception left the loop. *)
Definition dispatch (nextState : loc) (options : dispatch_arg) : M (option obj) :=
  let! s := getStore in
  let optionsH := effectiveOptions (defaultDispatchOptions s) options in
  let! ns := readObj nextState in
  let changeKeys := obj_keys ns in
  do! modifyStore (fun s => set_dispatchBatch (dispatchBatch s + 1)%Z s) in
  let! proceed := runBeforeDispatch nextState optionsH in
  if proceed then
    let! changed := computeChangedState nextState optionsH changeKeys in
    match changed with
    | Some changedState =>
        let! s := getStore in
        let! st := readObj (state s) in
        let! fresh := allocObj (obj_spread st changedState) in
        do! modifyStore (set_state fresh) in
        let! s := getStore in
        if takeOverDispatch s then
          do! modifyStore (fun s =>
                set_dispatchBatchOptionsMap
                  (<[dispatchBatch s := optionsH]> (dispatchBatchOptionsMap s)) s) in
          ret (Some changedState)
        else
          do! executeListeners (dispatchBatch s) changedState (Some optionsH) in
          ret (Some changedState)
    | None => ret None
    end
  else ret None.

(** [staticUpdateState(nextState)]: [Object.assign(this.state, nextState)]. *)
Definition staticUpdateState (nextState : obj) : M unit :=
  let! s := getStore in
  let! st := readObj (state s) in
  writeObj (state s) (obj_assign st nextState).

(** ** The phases of [dispatch] *)

(** The effective options of a dispatch. *)
Definition dispatch_options (options : dispatch_arg) (σ : config) : DispatchOptions :=
  effectiveOptions (defaultDispatchOptions (store σ)) options.

(** After [this.dispatchBatch++]. *)
Definition started (σ : config) : config :=
  {| store := set_dispatchBatch (dispatchBatch (store σ) + 1)%Z (store σ);
     heap := heap σ |}.

(** Whether the pre-dispatch hook lets the dispatch go on. *)
Definition allowed (ns : loc) (options : dispatch_arg) (σ : config) : bool :=
  result (runBeforeDispatch ns (dispatch_options options σ) (started σ)).

(** The configuration in which the per-key loop runs. *)
Definition hooked (ns : loc) (options : dispatch_arg) (σ : config) : config :=
  final (runBeforeDispatch ns (dispatch_options options σ) (started σ)).

Definition hook_calls (ns : loc) (options : dispatch_arg) (σ : config) : list event :=
  events (runBeforeDispatch ns (dispatch_options options σ) (started σ)).

(** What the loop yields: the changed-set, or [None] when it raises. *)
Definition loop_result (ns : loc) (options : dispatch_arg) (σ : config) : option obj :=
  result (computeChangedState ns (dispatch_options options σ)
            (obj_keys (heap_get (heap σ) ns)) (hooked ns options σ)).

Definition loop_calls (ns : loc) (options : dispatch_arg) (σ : config) : list event :=
  events (computeChangedState ns (dispatch_options options σ)
            (obj_keys (heap_get (heap σ) ns)) (hooked ns options σ)).

(** Whether the dispatch gets to the end: the hook lets it go on and the
    loop does not raise. *)
Definition completes (ns : loc) (options : dispatch_arg) (σ : config) : bool :=
  allowed ns options σ && bool_decide (is_Some (loop_result ns options σ)).

(** The changed-set that the loop computes. *)
Definition changed_set (ns : loc) (options : dispatch_arg) (σ : config) : obj :=
  default [] (loop_result ns options σ).

(** After [this.state = { ...this.state, ...changedState }]. *)
Definition applied (ns : loc) (options : dispatch_arg) (σ : config) : config :=
  let σ1 := hooked ns options σ in
  {| store := set_state (length (heap σ1)) (store σ1);
     heap := heap σ1
       ++ [obj_spread (heap_get (heap σ1) (state (store σ1)))
             (changed_set ns options σ)] |}.

(** After [this.dispatchBatchOptionsMap.set(this.dispatchBatch, optionsH)]. *)
Definition handed_off (ns : loc) (options : dispatch_arg) (σ : config) : config :=
  let σ2 := applied ns options σ in
  {| store := set_dispatchBatchOptionsMap
                (<[dispatchBatch (store σ2) := dispatch_options options σ]>
                   (dispatchBatchOptionsMap (store σ2))) (store σ2);
     heap := heap σ2 |}.

(** ** The loop, key by key *)

(** What the function that [this.actions?.[k]] finds returns in [σ] for
    the value that the partial state at [ns] has for [k], as the record that
    is assigned onto the changed-set; [None] when there is no such function
    or its call raises. *)
Definition returned (σ : config) (ns : loc) (k : key) : option obj :=
  match callee_of (store σ) k with
  | Some (Registered action) =>
      Some (action (obj_read k (heap_get (heap σ) ns))
              (heap_get (heap σ) (state (store σ))))
  | Some (Inherited m) =>
      call_inherited (store σ) (heap σ) m (obj_read k (heap_get (heap σ) ns))
  | None => None
  end.

(** Whether the call that the loop makes for [k] raises. *)
Definition raises (s : Store) (k : key) : bool :=
  match callee_of s k with
  | Some (Inherited (DefineGetter | DefineSetter)) => true
  | _ => false
  end.

(** What [k] contributes to the changed-set: the record that is assigned
    onto it.  It is computed from the configuration in which the loop runs,
    not from what the changed-set holds so far. *)
Definition contribution (σ : config) (ns : loc) (o : DispatchOptions) (k : key)
  : option obj :=
  let nextValue := obj_read k (heap_get (heap σ) ns) in
  let st := heap_get (heap σ) (state (store σ)) in
  match callee_of (store σ) k with
  | Some _ => returned σ ns k
  | None =>
      if check_on o && strict_eq nextValue (obj_read k st)
      then Some [] else Some [(k, nextValue)]
  end.

(** The contributions of a list of keys, if none raises. *)
Fixpoint contributions (σ : config) (ns : loc) (o : DispatchOptions)
    (keys : list key) : option (list obj) :=
  match keys with
  | [] => Some []
  | k :: r =>
      match contribution σ ns o k, contributions σ ns o r with
      | Some c, Some cs => Some (c :: cs)
      | _, _ => None
      end
  end.

(** The changed-set after the keys [keys], from [acc]: every contribution
    is assigned onto it, in order; [None] when a call raises. *)
Fixpoint assign_keys (σ : config) (ns : loc) (o : DispatchOptions)
    (keys : list key) (acc : obj) : option obj :=
  match keys with
  | [] => Some acc
  | k :: r =>
      match contribution σ ns o k with
      | Some c => assign_keys σ ns o r (obj_assign acc c)
      | None => None
      end
  end.

(** ** The calls an operation makes *)

(** The calls of the per-key loop when it gets to its end: one for every
    key that has a registered action. *)
Definition action_calls (σ : config) (ns : loc) (keys : list key) : list event :=
  flat_map (fun k =>
    match actions (store σ) !! k with
    | Some _ =>
        [CallAction k (obj_read k (heap_get (heap σ) ns))
           (state (store σ)) (heap_get (heap σ) (state (store σ)))]
    | None => []
    end) keys.

(** The events of one round of the loop. *)
Definition key_calls (σ : config) (ns : loc) (k : key) : list event :=
  if raises (store σ) k then [RaiseTypeError k] else action_calls σ ns [k].

(** The events of the loop: it ends with the first call that raises. *)
Fixpoint keys_calls (σ : config) (ns : loc) (keys : list key) : list event :=
  match keys with
  | [] => []
  | k :: r =>
      key_calls σ ns k ++ (if raises (store σ) k then [] else keys_calls σ ns r)
  end.

(** The listener calls of a notification pass over [changedState]. *)
Definition listener_calls (s : Store) (changedState : obj) : list event :=
  flat_map (fun k => map (CallListener k) (default [] (listeners s !! KStr k)))
    (obj_keys changedState).

(** What follows the listeners: [onChanged], or the warning. *)
Definition completion_calls (s : Store) (batch : Z)
    (optionsH : option DispatchOptions) : list event :=
  match optionsH with
  | Some o =>
      match onChanged o with
      | Defined cb => [CallOnChanged cb (state s)]
      | _ => []
      end
  | None => [Warn batch]
  end.

Definition afterDispatch_calls (s : Store) (changedState : obj) : list event :=
  match afterDispatch s with
  | Some cb => [CallAfterDispatch cb changedState]
  | None => []
  end.

(** The configuration after [executeListeners]: only an omitted [options]
    touches the pending-options map. *)
Definition notified (batch : Z) (options : option DispatchOptions) (σ : config)
  : config :=
  match options with
  | Some _ => σ
  | None =>
      {| store := set_dispatchBatchOptionsMap
                    (delete batch (dispatchBatchOptionsMap (store σ))) (store σ);
         heap := heap σ |}
  end.

(** The options a notification pass works with. *)
Definition resolved_options (batch : Z) (options : option DispatchOptions)
    (σ : config) : option DispatchOptions :=
  match options with
  | Some o => Some o
  | None => dispatchBatchOptionsMap (store σ) !! batch
  end.

(** [l] is in the set that the registry holds for the key [K]. *)
Definition registered (s : Store) (K : rawkey) (l : Listener) : Prop :=
  exists ls, listeners s !! K = Some ls /\ l ∈ ls.

(** [l] was called, through whichever field. *)
Definition invoked (l : Listener) (evs : list event) : Prop :=
  exists K, CallListener K l ∈ evs.

(** A well-formed object: no property name twice, and the properties in
    enumeration order. *)
Definition obj_wf (o : obj) : Prop :=
  NoDup (obj_keys o) /\ keys_ordered (obj_keys o) = true.

(** ** Sequences of operations *)

(** What the owner of a store, its subscribers and the code around them can
    do to a configuration. *)
Inductive op :=
| Dispatch (nextState : loc) (options : dispatch_arg)
| ExecuteListeners (batch : Z) (changedState : obj) (options : option DispatchOptions)
| Subscribe (listener : Listener) (k : rawkey)
| Unsubscribe (listener : Listener) (k : rawkey)
| GetState (k : option rawkey)
| StaticUpdateState (nextState : obj)
| SetTakeOverDispatch (b : bool)
| SetBeforeDispatch (hook : option BeforeDispatch)
| SetAfterDispatch (cb : option Callback)
| SetDefaultDispatchOptions (o : DispatchOptions)
| NewObject (o : obj)
| WriteObject (l : loc) (o : obj).

Definition run_op (x : op) : M unit :=
  match x with
  | Dispatch ns options => do! dispatch ns options in ret tt
  | ExecuteListeners batch c options => executeListeners batch c options
  | Subscribe l k => subscribe l k
  | Unsubscribe l k => unsubscribe l k
  | GetState k => do! getState k in ret tt
  | StaticUpdateState o => staticUpdateState o
  | SetTakeOverDispatch b => modifyStore (set_takeOverDispatch b)
  | SetBeforeDispatch hook => modifyStore (set_beforeDispatch hook)
  | SetAfterDispatch cb => modifyStore (set_afterDispatch cb)
  | SetDefaultDispatchOptions o => modifyStore (set_defaultDispatchOptions o)
  | NewObject o => do! allocObj o in ret tt
  | WriteObject l o => writeObj l o
  end.

Definition run (ops : list op) : M unit := forEach ops run_op.

(** A store as the constructor leaves it, over any heap. *)
Definition initial (st : loc) (acts : option (list (key * Action))) (h : list obj)
  : config :=
  {| store := newStore st acts; heap := h |}.

(** The outstanding batches, by the words of the specification: a dispatch
    that is handed off and gets to its end (it is not vetoed, and no
    exception ends it) makes its batch outstanding; a notification pass that
    is given no options settles the batch it names.  Nothing else changes
    the set. *)
Definition outstanding_step (x : op) (σ : config) (pending : gset Z) : gset Z :=
  match x with
  | Dispatch ns options =>
      if takeOverDispatch (store σ) && completes ns options σ
      then {[ (dispatchBatch (store σ) + 1)%Z ]} ∪ pending
      else pending
  | ExecuteListeners batch _ None => pending ∖ {[ batch ]}
  | _ => pending
  end.

Fixpoint outstanding (ops : list op) (σ : config) (pending : gset Z) : gset Z :=
  match ops with
  | [] => pending
  | x :: r => outstanding r (final (run_op x σ)) (outstanding_step x σ pending)
  end.

(** The keys of the map are batch numbers that have been handed out. *)
Definition batches_bounded (σ : config) : Prop :=
  (0 <= dispatchBatch (store σ))%Z
  /\ forall batch, batch ∈ dom (dispatchBatchOptionsMap (store σ)) ->
                   (0 < batch <= dispatchBatch (store σ))%Z.

(** Whether an operation is a call of [dispatch]. *)
Definition is_dispatch (x : op) : bool :=
  match x with
  | Dispatch _ _ => true
  | _ => false
  end.

(** Every set of the registry is a set: no listener twice. *)
Definition registry_sets (s : Store) : Prop :=
  forall K ls, listeners s !! K = Some ls -> NoDup ls.

(** ** Sample stores *)

Module Samples.

(** The store [{count: 0, name: "a"}] with no actions, a listener 1 on
    [count] and a listener 2 on [name]; the state object is at location 0
    and the caller's partial state at location 1. *)
Definition plain_heap (nextState : obj) : list obj :=
  [ [("count", VNum 0); ("name", VStr "a")]; nextState ].

Definition with_listeners (s : Store) : Store :=
  set_listeners {[ KStr "count" := [1%nat]; KStr "name" := [2%nat] ]} s.

Definition plain (nextState : obj) : config :=
  {| store := with_listeners (newStore 0 None); heap := plain_heap nextState |}.

(** [count: (v, s) => ({count: v, name: "n5"})]: an action that writes a
    second field. *)
Definition ripple : Action :=
  fun v _ => [("count", v); ("name", VStr "n5")].

(** The sample store with the actions object [{count: ripple}]. *)
Definition rippling (nextState : obj) : config :=
  {| store := with_listeners (newStore 0 (Some [("count", ripple)]));
     heap := plain_heap nextState |}.

(** [{check: true}] *)
Definition checked : DispatchOptions :=
  {| check := Defined true; onChanged := Omitted |}.

(** A store whose pre-dispatch hook refuses everything. *)
Definition vetoing (nextState : obj) : config :=
  {| store := set_afterDispatch (Some 9%nat)
                (set_beforeDispatch (Some (fun _ _ _ => HBool false))
                   (store (plain nextState)));
     heap := plain_heap nextState |}.

(** A store whose pre-dispatch hook returns [{name: "z"}]. *)
Definition extending (nextState : obj) : config :=
  {| store := set_afterDispatch (Some 9%nat)
                (set_beforeDispatch
                   (Some (fun _ _ _ => HObject [("name", VStr "z")]))
                   (store (plain nextState)));
     heap := plain_heap nextState |}.

(** Hand-off mode. *)
Definition handoff (nextState : obj) : config :=
  {| store := set_afterDispatch (Some 9%nat)
                (set_takeOverDispatch true (store (plain nextState)));
     heap := plain_heap nextState |}.

Definition handoff_vetoing (nextState : obj) : config :=
  {| store := set_takeOverDispatch true (store (vetoing nextState));
     heap := plain_heap nextState |}.

(** [count: (v, s) => ({count: s.count})]: an action that reports what it
    sees in the state. *)
Definition echo : Action := fun _ st => [("count", obj_read "count" st)].

(** A store with the action [echo] and a hook that returns [{count: 9}]; the
    only object is the state object. *)
Definition echoing : config :=
  {| store := set_beforeDispatch (Some (fun _ _ _ => HObject [("count", VNum 9)]))
                (newStore 0 (Some [("count", echo)]));
     heap := [ [("count", VNum 0)] ] |}.

End Samples.

(** ** More sample stores *)

Module Scenarios.



(** Three subscriptions, one of them repeated. *)
Definition subscriptions : list op :=
  [Subscribe 1 (KStr "count"); Subscribe 2 (KStr "count"); Subscribe 1 (KStr "count")].

(** The store [{1: "a"}], as [new Store({1: 'a'})] makes it, without
    listeners; the partial state at location 1 is given. *)
Definition numbered (nextState : obj) : config :=
  {| store := newStore 0 None; heap := [ [("1", VStr "a")]; nextState ] |}.

(** The store [{a: 0, b: 0, total: 1}] with two actions:
    [a: (v, s) => ({a: v, total: v})] writes [total], and
    [b: (v, s) => ({b: s.total})] reports the [total] it sees. *)
Definition set_total : Action := fun v _ => [("a", v); ("total", v)].
Definition see_total : Action := fun _ st => [("b", obj_read "total" st)].

Definition ledger (nextState : obj) : config :=
  {| store := newStore 0 (Some [("a", set_total); ("b", see_total)]);
     heap := [ [("a", VNum 0); ("b", VNum 0); ("total", VNum 1)]; nextState ] |}.

(** The store [{b: 0, c: 0}] with the action
    [c: (v, s) => ({c: v, 1: v})], a listener 1 on [b], 2 on [c] and 3 on
    the field [1] (subscribed by its name), and an [afterDispatch] hook. *)
Definition indexing : Action := fun v _ => [("1", v); ("c", v)].

Definition indexed (nextState : obj) : config :=
  {| store := set_afterDispatch (Some 9%nat)
                (set_listeners
                   {[ KStr "b" := [1%nat]; KStr "c" := [2%nat]; KStr "1" := [3%nat] ]}
                   (newStore 0 (Some [("c", indexing)])));
     heap := [ [("b", VNum 0); ("c", VNum 0)]; nextState ] |}.

End Scenarios.

(** * Properties of objects *)

Section Objects.

Implicit Types (o t src : obj) (k : key) (v : value).

Lemma obj_get_None k o : obj_get k o = None <-> k ∉ obj_keys o.
Proof.
  induction o as [|[k' v'] r IH]; simpl.
  - split; [intros _; apply not_elem_of_nil | done].
  - destruct (decide (k = k')) as [->|Hne].
    + split; [done | intros H; exfalso; apply H; left].
    + rewrite IH. rewrite not_elem_of_cons. intuition congruence.
Qed.

Lemma obj_get_is_Some k o : is_Some (obj_get k o) <-> k ∈ obj_keys o.
Proof.
  rewrite <- not_eq_None_Some, obj_get_None.
  destruct (decide (k ∈ obj_keys o)); intuition congruence.
Qed.

(** The order of names. *)
Lemma key_before_asym k k' : key_before k k' = true -> key_before k' k = false.
Proof.
  unfold key_before.
  destruct (array_index k), (array_index k'); try done.
  rewrite N.ltb_lt, N.ltb_ge. lia.
Qed.

Lemma key_before_chain k k' k'' :
  key_before k k' = true -> key_before k'' k' = false -> key_before k'' k = false.
Proof.
  unfold key_before.
  destruct (array_index k), (array_index k'), (array_index k''); try done.
  rewrite N.ltb_lt, !N.ltb_ge. lia.
Qed.

Lemma keys_ordered_cons k ks :
  keys_ordered (k :: ks) = true
  <-> (forall k', k' ∈ ks -> key_before k' k = false) /\ keys_ordered ks = true.
Proof.
  simpl. rewrite andb_true_iff, forallb_forall. split.
  - intros [H ?]. split; [|done]. intros k' Hk'.
    apply negb_true_iff, H. by apply list_elem_of_In.
  - intros [H ?]. split; [|done]. intros k' Hk'.
    apply negb_true_iff, H. by apply list_elem_of_In.
Qed.

Lemma keys_ordered_app ks ks' :
  keys_ordered (ks ++ ks') = true
  <-> keys_ordered ks = true /\ keys_ordered ks' = true
      /\ forall k k', k ∈ ks -> k' ∈ ks' -> key_before k' k = false.
Proof.
  induction ks as [|k0 r IH]; [simpl|rewrite <- app_comm_cons].
  - split; [|tauto]. intros H. split; [done|]. split; [done|].
    by intros k k' ?%elem_of_nil.
  - rewrite !keys_ordered_cons, IH. split.
    + intros (H0 & Hr & Hs & Hrs). split; [split; [|done]|split; [done|]].
      * intros k' Hk'. apply H0. apply elem_of_app. by left.
      * intros k k' [->|Hk]%elem_of_cons Hk'.
        -- apply H0. apply elem_of_app. by right.
        -- by apply Hrs.
    + intros ((H0 & Hr) & Hs & Hrs). split; [|split; [done|split; [done|]]].
      * intros k' [Hk'|Hk']%elem_of_app; [by apply H0|].
        apply Hrs; [left|done].
      * intros k k' Hk Hk'. apply Hrs; [by right|done].
Qed.

(** Writing an own property. *)
Lemma obj_keys_update k v o : obj_keys (obj_update k v o) = obj_keys o.
Proof.
  induction o as [|[k' v'] r IH]; simpl; [done|].
  destruct (decide (k = k')) as [->|Hne]; simpl; [done|]. by rewrite IH.
Qed.

Lemma obj_get_update_eq k v o :
  k ∈ obj_keys o -> obj_get k (obj_update k v o) = Some v.
Proof.
  induction o as [|[k' v'] r IH]; simpl; intros Hk.
  - by apply elem_of_nil in Hk.
  - destruct (decide (k = k')) as [->|Hne]; simpl.
    + by rewrite decide_True.
    + rewrite decide_False by done. apply IH.
      apply elem_of_cons in Hk as [?|?]; [congruence|done].
Qed.

Lemma obj_get_update_ne k k' v o :
  k <> k' -> obj_get k' (obj_update k v o) = obj_get k' o.
Proof.
  intros Hne. induction o as [|[k0 v0] r IH]; simpl; [done|].
  destruct (decide (k = k0)) as [->|Hne0]; simpl.
  - by rewrite !decide_False.
  - destruct (decide (k' = k0)); [done | apply IH].
Qed.

(** Creating a property. *)
Lemma obj_keys_insert k k' v o :
  k' ∈ obj_keys (obj_insert k v o) <-> k' = k \/ k' ∈ obj_keys o.
Proof.
  induction o as [|[k0 v0] r IH]; simpl.
  - rewrite list_elem_of_singleton. split; [auto | intros [|H]; [done|]].
    by apply elem_of_nil in H.
  - destruct (key_before k k0); simpl.
    + rewrite !elem_of_cons. tauto.
    + rewrite !elem_of_cons, IH. tauto.
Qed.

Lemma obj_get_insert_eq k v o :
  k ∉ obj_keys o -> obj_get k (obj_insert k v o) = Some v.
Proof.
  induction o as [|[k' v'] r IH]; simpl; intros Hk.
  - by rewrite decide_True.
  - apply not_elem_of_cons in Hk as [Hne Hk].
    destruct (key_before k k'); simpl.
    + by rewrite decide_True.
    + rewrite decide_False by done. by apply IH.
Qed.

Lemma obj_get_insert_ne k k' v o :
  k <> k' -> obj_get k' (obj_insert k v o) = obj_get k' o.
Proof.
  intros Hne. induction o as [|[k0 v0] r IH]; simpl.
  - by rewrite decide_False.
  - destruct (key_before k k0); simpl.
    + by rewrite decide_False.
    + destruct (decide (k' = k0)); [done | apply IH].
Qed.

Lemma obj_insert_NoDup k v o :
  k ∉ obj_keys o -> NoDup (obj_keys o) -> NoDup (obj_keys (obj_insert k v o)).
Proof.
  induction o as [|[k' v'] r IH]; simpl; intros Hk Hnd.
  - apply NoDup_singleton.
  - destruct (key_before k k'); simpl.
    + by apply NoDup_cons.
    + apply not_elem_of_cons in Hk as [Hne Hk].
      apply NoDup_cons in Hnd as [Hk' Hnd]. apply NoDup_cons. split; [|by apply IH].
      intros [?|?]%obj_keys_insert; [congruence|done].
Qed.

Lemma obj_insert_ordered k v o :
  keys_ordered (obj_keys o) = true ->
  keys_ordered (obj_keys (obj_insert k v o)) = true.
Proof.
  induction o as [|[k' v'] r IH]; intros Hord; [done|].
  simpl obj_insert. destruct (key_before k k') eqn:Hb.
  - change (keys_ordered (k :: obj_keys ((k', v') :: r)) = true).
    apply keys_ordered_cons. split; [|done].
    simpl in Hord |- *. apply keys_ordered_cons in Hord as [Hall _].
    intros k'' [->|Hin]%elem_of_cons.
    + by apply key_before_asym.
    + apply (key_before_chain k k'); [done|]. by apply Hall.
  - change (keys_ordered (k' :: obj_keys (obj_insert k v r)) = true).
    change (keys_ordered (k' :: obj_keys r) = true) in Hord.
    apply keys_ordered_cons in Hord as [Hall Hr].
    apply keys_ordered_cons. split; [|by apply IH].
    intros k'' [->|Hin]%obj_keys_insert; [done|]. by apply Hall.
Qed.

(** A name that comes after all the names of the object goes to the end. *)
Lemma obj_insert_last k v o :
  (forall k', k' ∈ obj_keys o -> key_before k k' = false) ->
  obj_insert k v o = o ++ [(k, v)].
Proof.
  induction o as [|[k' v'] r IH]; simpl; intros Hall; [done|].
  rewrite (Hall k') by left. rewrite IH; [done|].
  intros k'' Hk''. apply Hall. by right.
Qed.

(** [o[k] = v] *)
Lemma obj_get_set_eq k v o : obj_get k (obj_set k v o) = Some v.
Proof.
  unfold obj_set. destruct (obj_get k o) as [v0|] eqn:Hk.
  - apply obj_get_update_eq, obj_get_is_Some. by rewrite Hk.
  - by apply obj_get_insert_eq, obj_get_None.
Qed.

Lemma obj_get_set_ne k k' v o :
  k <> k' -> obj_get k' (obj_set k v o) = obj_get k' o.
Proof.
  intros Hne. unfold obj_set. destruct (obj_get k o).
  - by apply obj_get_update_ne.
  - by apply obj_get_insert_ne.
Qed.

Lemma obj_keys_set k k' v o :
  k' ∈ obj_keys (obj_set k v o) <-> k' = k \/ k' ∈ obj_keys o.
Proof.
  unfold obj_set. destruct (obj_get k o) as [v0|] eqn:Hk.
  - rewrite obj_keys_update. split; [by right|].
    intros [->|?]; [|done]. apply obj_get_is_Some. by rewrite Hk.
  - apply obj_keys_insert.
Qed.

Lemma obj_set_wf k v o : obj_wf o -> obj_wf (obj_set k v o).
Proof.
  intros [Hnd Hord]. unfold obj_wf, obj_set.
  destruct (obj_get k o) as [v0|] eqn:Hk.
  - by rewrite obj_keys_update.
  - split.
    + apply obj_insert_NoDup; [by apply obj_get_None|done].
    + by apply obj_insert_ordered.
Qed.

Lemma obj_set_last k v o :
  k ∉ obj_keys o ->
  (forall k', k' ∈ obj_keys o -> key_before k k' = false) ->
  obj_set k v o = o ++ [(k, v)].
Proof.
  intros Hk Hall. unfold obj_set.
  apply obj_get_None in Hk. rewrite Hk. by apply obj_insert_last.
Qed.


Lemma obj_assign_nil t : obj_assign t [] = t.
Proof. done. Qed.

Lemma obj_keys_assign k t src :
  k ∈ obj_keys (obj_assign t src) <-> k ∈ obj_keys t \/ k ∈ obj_keys src.
Proof.
  unfold obj_assign. revert t.
  induction src as [|[k0 v0] r IH]; intros t; simpl.
  - split; [auto | intros [|H]; [done|]]. by apply elem_of_nil in H.
  - rewrite IH, obj_keys_set, elem_of_cons. intuition congruence.
Qed.

Lemma obj_get_assign_absent k t src :
  k ∉ obj_keys src -> obj_get k (obj_assign t src) = obj_get k t.
Proof.
  unfold obj_assign. revert t.
  induction src as [|[k0 v0] r IH]; intros t Hk; simpl; [done|].
  simpl in Hk. apply not_elem_of_cons in Hk as [Hne Hk].
  rewrite IH by done. by apply obj_get_set_ne.
Qed.

Lemma obj_get_assign_present k v t src :
  obj_wf src -> obj_get k src = Some v ->
  obj_get k (obj_assign t src) = Some v.
Proof.
  intros [Hwf _]. unfold obj_assign. revert t.
  induction src as [|[k0 v0] r IH]; intros t Hk; simpl in *; [done|].
  apply NoDup_cons in Hwf as [Hk0 Hwf].
  destruct (decide (k = k0)) as [->|Hne].
  - injection Hk as ->.
    fold (obj_assign (obj_set k0 v t) r).
    rewrite obj_get_assign_absent by done. apply obj_get_set_eq.
  - by apply IH.
Qed.

Lemma obj_assign_wf t src : obj_wf t -> obj_wf (obj_assign t src).
Proof.
  unfold obj_assign. revert t.
  induction src as [|[k0 v0] r IH]; intros t Hwf; simpl; [done|].
  by apply IH, obj_set_wf.
Qed.

Lemma obj_wf_nil : obj_wf [].
Proof. split; [apply NoDup_nil_2|done]. Qed.

Lemma obj_spread_wf o c : obj_wf (obj_spread o c).
Proof. unfold obj_spread. do 2 apply obj_assign_wf. apply obj_wf_nil. Qed.

Lemma obj_assign_app t src :
  obj_wf (t ++ src) -> obj_assign t src = t ++ src.
Proof.
  unfold obj_assign, obj_wf, obj_keys. revert t.
  induction src as [|[k0 v0] r IH]; intros t [Hnd Hord]; simpl.
  - by rewrite app_nil_r.
  - rewrite map_app in Hnd, Hord. simpl in Hnd, Hord.
    rewrite obj_set_last.
    + rewrite IH; rewrite <- app_assoc; [done|].
      by rewrite map_app.
    + apply NoDup_app in Hnd as (_ & Hd & _).
      intros Hin. apply (Hd k0 Hin). left.
    + apply keys_ordered_app in Hord as (_ & _ & Hcross).
      intros k' Hk'. apply Hcross; [done|left].
Qed.

(** Copying a well-formed object yields the same properties. *)
Lemma obj_spread_empty o : obj_wf o -> obj_spread o [] = o.
Proof. intros Hwf. unfold obj_spread. simpl. by apply (obj_assign_app []). Qed.

Lemma obj_read_own k v o : obj_get k o = Some v -> obj_read k o = v.
Proof. intros H. unfold obj_read. by rewrite H. Qed.

Lemma obj_read_set_eq k v o : obj_read k (obj_set k v o) = v.
Proof. apply obj_read_own, obj_get_set_eq. Qed.

(** A field of [Object.assign(t, src)] comes from [src] if [src] has it,
    from [t] otherwise. *)
Lemma obj_get_assign k t src :
  obj_wf src ->
  obj_get k (obj_assign t src) =
    match obj_get k src with
    | Some v => Some v
    | None => obj_get k t
    end.
Proof.
  intros Hs. destruct (obj_get k src) as [v|] eqn:Hk.
  - by apply obj_get_assign_present.
  - apply obj_get_assign_absent. by apply obj_get_None.
Qed.

(** A field of [{...o, ...c}] comes from [c] if [c] has it, from [o]
    otherwise. *)
Lemma obj_get_spread k o c :
  obj_wf o -> obj_wf c ->
  obj_get k (obj_spread o c) =
    match obj_get k c with
    | Some v => Some v
    | None => obj_get k o
    end.
Proof.
  intros Ho Hc. unfold obj_spread.
  rewrite (obj_get_assign k _ c) by done.
  destruct (obj_get k c); [done|].
  rewrite (obj_get_assign k [] o) by done. by destruct (obj_get k o).
Qed.


Lemma obj_read_spread k o c :
  obj_wf o -> obj_wf c ->
  obj_read k (obj_spread o c) =
    match obj_get k c with
    | Some v => v
    | None => obj_read k o
    end.
Proof.
  intros Ho Hc. unfold obj_read. rewrite obj_get_spread by done.
  by destruct (obj_get k c).
Qed.

End Objects.

(** * How the operations run *)

Section Runs.

Implicit Types (σ : config) (s : Store) (ns : loc) (o : DispatchOptions)
  (c : obj) (k : key).

Lemma forEach_run {A} (xs : list A) (f : A -> M unit) (g : A -> list event) σ :
  (forall x, f x σ = (tt, σ, g x)) ->
  forEach xs f σ = (tt, σ, flat_map g xs).
Proof.
  intros Hf. induction xs as [|x r IH]; simpl; [done|].
  unfold bind. by rewrite Hf, IH.
Qed.

(** The lookup [this.actions?.[k]], case by case. *)
Lemma callee_of_registered s k action :
  actions s !! k = Some action -> callee_of s k = Some (Registered action).
Proof. intros H. unfold callee_of. by rewrite H. Qed.

Lemma callee_of_no_object s k :
  actionsObject s = None -> callee_of s k = None.
Proof. intros H. unfold callee_of, actions. by rewrite H. Qed.


Lemma callee_of_action s k action :
  callee_of s k = Some (Registered action) <-> actions s !! k = Some action.
Proof.
  unfold callee_of. destruct (actions s !! k).
  - split; congruence.
  - destruct (actionsObject s); [destruct (inherited_method k)|]; simpl;
      split; congruence.
Qed.

Lemma returned_action σ ns k action :
  actions (store σ) !! k = Some action ->
  returned σ ns k =
    Some (action (obj_read k (heap_get (heap σ) ns))
            (heap_get (heap σ) (state (store σ)))).
Proof. intros H. unfold returned. by rewrite (callee_of_registered _ _ action). Qed.


(** A key contributes nothing exactly when its call raises. *)
Lemma contribution_None σ ns o k :
  contribution σ ns o k = None <-> raises (store σ) k = true.
Proof.
  unfold contribution, returned, raises.
  destruct (callee_of (store σ) k) as [[a|m]|]; simpl.
  - done.
  - destruct m; simpl; try done.
    by destruct (actions (store σ) !! "toString").
  - by destruct (_ && _).
Qed.

Lemma contribution_Some σ ns o k ret :
  contribution σ ns o k = Some ret -> raises (store σ) k = false.
Proof.
  intros H. destruct (raises (store σ) k) eqn:Hr; [|done].
  apply (contribution_None σ ns o) in Hr. congruence.
Qed.

Lemma contribution_returned σ ns o k ret :
  returned σ ns k = Some ret -> contribution σ ns o k = Some ret.
Proof.
  unfold contribution, returned.
  by destruct (callee_of (store σ) k) as [[a|m]|].
Qed.


(** A contribution is what the function found returned, or at most the
    key itself. *)
Lemma contribution_cases σ ns o k ret :
  contribution σ ns o k = Some ret ->
  returned σ ns k = Some ret
  \/ (callee_of (store σ) k = None
      /\ (ret = [] \/ ret = [(k, obj_read k (heap_get (heap σ) ns))])).
Proof.
  unfold contribution, returned.
  destruct (callee_of (store σ) k) as [[a|m]|]; [by left|by left|].
  intros H. right. split; [done|].
  destruct (_ && _); injection H as <-; [by left|by right].
Qed.

(** One round of the loop. *)
Lemma resolveKey_run ns o c k σ :
  resolveKey ns o c k σ =
    (obj_assign c <$> contribution σ ns o k, σ, key_calls σ ns k).
Proof.
  unfold resolveKey, contribution, returned, key_calls, raises, action_calls,
    callee_of, bind.
  simpl. destruct (actions (store σ) !! k) as [a|]; simpl; [done|].
  destruct (actionsObject (store σ)) as [entries|]; simpl.
  - destruct (inherited_method k) as [m|]; simpl.
    + destruct m; simpl; try done.
      by destruct (actions (store σ) !! "toString").
    + destruct (check_on o); simpl; [|done].
      unfold strict_ne. by destruct (strict_eq _ _).
  - destruct (check_on o); simpl; [|done].
    unfold strict_ne. by destruct (strict_eq _ _).
Qed.

Lemma foldM_resolveKey_run ns o keys c σ :
  foldM (resolveKey ns o) keys c σ =
    (assign_keys σ ns o keys c, σ, keys_calls σ ns keys).
Proof.
  revert c. induction keys as [|k r IH]; intros c; simpl; [done|].
  unfold bind. rewrite resolveKey_run.
  destruct (contribution σ ns o k) as [ret|] eqn:Hc; simpl.
  - rewrite IH. by rewrite (contribution_Some σ ns o k ret).
  - apply contribution_None in Hc. rewrite Hc. by rewrite !app_nil_r.
Qed.

Lemma computeChangedState_run ns o keys σ :
  computeChangedState ns o keys σ =
    (assign_keys σ ns o keys [], σ, keys_calls σ ns keys).
Proof. unfold computeChangedState. by rewrite foldM_resolveKey_run. Qed.

(** A loop that gets to its end has made the calls of the registered
    actions, and no other. *)
Lemma keys_calls_complete σ ns o keys acc c :
  assign_keys σ ns o keys acc = Some c ->
  keys_calls σ ns keys = action_calls σ ns keys.
Proof.
  revert acc. induction keys as [|k r IH]; intros acc; simpl; [done|].
  destruct (contribution σ ns o k) as [ret|] eqn:Hc; [|done].
  intros H. unfold key_calls. rewrite (contribution_Some σ ns o k ret) by done.
  rewrite (IH _ H). unfold action_calls. simpl. by rewrite app_nil_r.
Qed.

(** The changed-set is made of the contributions of the keys, each
    assigned onto it in turn. *)
Lemma assign_keys_contributions σ ns o keys acc c :
  assign_keys σ ns o keys acc = Some c
  <-> exists cs, contributions σ ns o keys = Some cs
                 /\ c = fold_left obj_assign cs acc.
Proof.
  revert acc. induction keys as [|k r IH]; intros acc; simpl.
  - split.
    + intros [= <-]. by exists [].
    + by intros (cs & [= <-] & ->).
  - destruct (contribution σ ns o k) as [ret|].
    + rewrite IH. split.
      * intros (cs & -> & ->). by exists (ret :: cs).
      * intros (cs & Hcs & ->).
        destruct (contributions σ ns o r) as [cs'|]; [|done].
        injection Hcs as <-. by exists cs'.
    + split; [done|]. by intros (cs & [=] & _).
Qed.

Lemma notify_loop_run σ c :
  forEach (obj_keys c) (fun realChangeKey =>
      let! s := getStore in
      match listeners s !! KStr realChangeKey with
      | Some ls => forEach ls (fun listener => emit (CallListener realChangeKey listener))
      | None => ret tt
      end) σ
  = (tt, σ, listener_calls (store σ) c).
Proof.
  unfold listener_calls. apply forEach_run. intros k.
  unfold bind, getStore. simpl.
  destruct (listeners (store σ) !! KStr k) as [ls|]; simpl; [|done].
  rewrite (forEach_run ls _ (fun l => [CallListener k l])) by done.
  do 2 f_equal.
Qed.

Lemma executeListeners_run batch c options σ :
  executeListeners batch c options σ =
    (tt, notified batch options σ,
     listener_calls (store σ) c
       ++ completion_calls (store σ) batch (resolved_options batch options σ)
       ++ afterDispatch_calls (store σ) c).
Proof.
  unfold executeListeners, bind.
  destruct options as [o|]; simpl.
  - rewrite notify_loop_run. simpl.
    unfold completion_calls, afterDispatch_calls.
    destruct (onChanged o); simpl; destruct (afterDispatch (store σ)); simpl;
      by rewrite ?app_nil_r.
  - rewrite notify_loop_run. simpl.
    unfold completion_calls, afterDispatch_calls.
    destruct (dispatchBatchOptionsMap (store σ) !! batch) as [o|]; simpl.
    + destruct (onChanged o); simpl; destruct (afterDispatch (store σ)); simpl;
        by rewrite ?app_nil_r.
    + destruct (afterDispatch (store σ)); simpl; by rewrite ?app_nil_r.
Qed.

Lemma runBeforeDispatch_eta ns o σ :
  runBeforeDispatch ns o σ =
    (result (runBeforeDispatch ns o σ), final (runBeforeDispatch ns o σ),
     events (runBeforeDispatch ns o σ)).
Proof. by destruct (runBeforeDispatch ns o σ) as [[? ?] ?]. Qed.

(** The hook phase leaves the store alone; it writes at most the
    [nextState] object. *)
Lemma runBeforeDispatch_store ns o σ :
  store (final (runBeforeDispatch ns o σ)) = store σ.
Proof.
  unfold runBeforeDispatch, bind, getStore, readObj, emit, writeObj, ret, final.
  simpl. destruct (beforeDispatch (store σ)) as [hook|]; simpl; [|done].
  by destruct (hook _ _ _) as [[|]|res].
Qed.

Lemma hooked_store ns options σ :
  store (hooked ns options σ) = store (started σ).
Proof. apply runBeforeDispatch_store. Qed.

Lemma loop_result_eq ns options σ :
  loop_result ns options σ =
    assign_keys (hooked ns options σ) ns (dispatch_options options σ)
      (obj_keys (heap_get (heap σ) ns)) [].
Proof. unfold loop_result. by rewrite computeChangedState_run. Qed.

Lemma loop_calls_eq ns options σ :
  loop_calls ns options σ =
    keys_calls (hooked ns options σ) ns (obj_keys (heap_get (heap σ) ns)).
Proof. unfold loop_calls. by rewrite computeChangedState_run. Qed.

(** A dispatch that stops short: the hook's veto, or an exception in the
    loop.  Nothing after the loop is run. *)
Lemma dispatch_stopped ns options σ :
  completes ns options σ = false ->
  dispatch ns options σ =
    (None, hooked ns options σ,
     hook_calls ns options σ
       ++ (if allowed ns options σ then loop_calls ns options σ else [])).
Proof.
  unfold completes, allowed, loop_result, loop_calls, hooked, hook_calls,
    dispatch_options, started.
  intros Hp. unfold dispatch, bind. simpl.
  destruct (runBeforeDispatch _ _ _) as [[p σ1] e1].
  unfold result, final, events in *. simpl in *. destruct p; simpl in *.
  - destruct (computeChangedState _ _ _ σ1) as [[[c|] σ2] e2] eqn:Hloop;
      simpl in *; [done|].
    rewrite computeChangedState_run in Hloop. injection Hloop as _ <- _.
    by rewrite app_nil_r.
  - done.
Qed.

Lemma dispatch_completes ns options σ :
  completes ns options σ = true ->
  dispatch ns options σ =
    if takeOverDispatch (store σ) then
      (Some (changed_set ns options σ), handed_off ns options σ,
       hook_calls ns options σ
         ++ action_calls (hooked ns options σ) ns (obj_keys (heap_get (heap σ) ns)))
    else
      (Some (changed_set ns options σ), applied ns options σ,
       hook_calls ns options σ
         ++ action_calls (hooked ns options σ) ns (obj_keys (heap_get (heap σ) ns))
         ++ events (executeListeners
                      (dispatchBatch (store σ) + 1)%Z (changed_set ns options σ)
                      (Some (dispatch_options options σ)) (applied ns options σ))).
Proof.
  intros Hp.
  pose proof (hooked_store ns options σ) as Hs.
  unfold completes, allowed, loop_result, handed_off, applied, changed_set,
    loop_result, hooked, hook_calls, dispatch_options, started in *.
  unfold dispatch, bind. simpl.
  destruct (runBeforeDispatch _ _ _) as [[p σ1] e1].
  unfold result, final, events in *. simpl in *. destruct p; [|done].
  rewrite computeChangedState_run in *. simpl in *.
  destruct (assign_keys _ _ _ _ _) as [c|] eqn:Hloop; [|done]. simpl.
  rewrite (keys_calls_complete _ _ _ _ _ _ Hloop).
  rewrite Hs. simpl.
  destruct (takeOverDispatch (store σ)); simpl.
  - by rewrite !app_nil_r.
  - destruct (executeListeners _ _ _ _) as [[[] σ'] evs] eqn:Hrun.
    rewrite executeListeners_run in Hrun. simpl in Hrun.
    injection Hrun as <- <-. simpl. by rewrite !app_nil_r.
Qed.

Lemma dispatch_result ns options σ :
  result (dispatch ns options σ) =
    if completes ns options σ then Some (changed_set ns options σ) else None.
Proof.
  destruct (completes ns options σ) eqn:Hp.
  - rewrite dispatch_completes by done. by destruct (takeOverDispatch _).
  - by rewrite dispatch_stopped.
Qed.

Lemma dispatch_result_Some ns options σ c :
  result (dispatch ns options σ) = Some c ->
  completes ns options σ = true /\ c = changed_set ns options σ.
Proof.
  rewrite dispatch_result. destruct (completes ns options σ); [|done].
  intros [= <-]. done.
Qed.

(** The changed-set of a dispatch that gets to its end is what the loop
    yields. *)
Lemma dispatch_result_loop ns options σ c :
  result (dispatch ns options σ) = Some c ->
  assign_keys (hooked ns options σ) ns (dispatch_options options σ)
    (obj_keys (heap_get (heap σ) ns)) [] = Some c.
Proof.
  intros [Hp ->]%dispatch_result_Some.
  unfold completes in Hp. apply andb_true_iff in Hp as [_ Hp].
  apply bool_decide_eq_true in Hp as [c Hc].
  unfold changed_set. rewrite Hc. simpl. by rewrite <- loop_result_eq.
Qed.

(** The hook phase, case by case. *)
Lemma runBeforeDispatch_None ns o σ :
  beforeDispatch (store σ) = None ->
  runBeforeDispatch ns o σ = (true, σ, []).
Proof. intros H. unfold runBeforeDispatch, bind. simpl. by rewrite H. Qed.

Lemma runBeforeDispatch_Some ns o σ hook :
  beforeDispatch (store σ) = Some hook ->
  runBeforeDispatch ns o σ =
    let contents := heap_get (heap σ) ns in
    let call := [CallBeforeDispatch (dispatchBatch (store σ)) ns contents o] in
    match hook (dispatchBatch (store σ)) contents o with
    | HBool b => (b, σ, call)
    | HObject res =>
        (true,
         {| store := store σ; heap := <[ns := obj_assign contents res]> (heap σ) |},
         call)
    end.
Proof.
  intros H. unfold runBeforeDispatch, bind. simpl. rewrite H. simpl.
  by destruct (hook _ _ _) as [[|]|res].
Qed.

Lemma hooked_heap_length ns options σ :
  length (heap (hooked ns options σ)) = length (heap σ).
Proof.
  unfold hooked.
  destruct (beforeDispatch (store (started σ))) as [hook|] eqn:Hh.
  - rewrite (runBeforeDispatch_Some _ _ _ hook) by done. simpl.
    destruct (hook _ _ _) as [b|res]; simpl; [done|].
    by rewrite length_insert.
  - by rewrite runBeforeDispatch_None.
Qed.

(** Objects other than [nextState] are as they were. *)
Lemma hooked_heap_other ns options σ l :
  l <> ns -> heap (hooked ns options σ) !! l = heap σ !! l.
Proof.
  intros Hne. unfold hooked.
  destruct (beforeDispatch (store (started σ))) as [hook|] eqn:Hh.
  - rewrite (runBeforeDispatch_Some _ _ _ hook) by done. simpl.
    destruct (hook _ _ _) as [b|res]; simpl; [done|].
    by rewrite list_lookup_insert_ne.
  - by rewrite runBeforeDispatch_None.
Qed.

Lemma hook_calls_inv ns options σ e :
  e ∈ hook_calls ns options σ ->
  exists contents,
    e = CallBeforeDispatch (dispatchBatch (store σ) + 1)%Z ns contents
          (dispatch_options options σ).
Proof.
  unfold hook_calls.
  destruct (beforeDispatch (store (started σ))) as [hook|] eqn:Hh.
  - rewrite (runBeforeDispatch_Some _ _ _ hook) by done. simpl.
    destruct (hook _ _ _) as [b|res]; unfold events; simpl;
      rewrite list_elem_of_singleton; intros ->; eauto.
  - rewrite runBeforeDispatch_None by done. unfold events. simpl.
    by intros ?%elem_of_nil.
Qed.

Lemma action_calls_inv σ ns keys e :
  e ∈ action_calls σ ns keys ->
  exists k action,
    k ∈ keys /\ actions (store σ) !! k = Some action /\
    e = CallAction k (obj_read k (heap_get (heap σ) ns))
          (state (store σ)) (heap_get (heap σ) (state (store σ))).
Proof.
  unfold action_calls. rewrite list_elem_of_In, in_flat_map.
  intros (k & Hk & He). exists k.
  destruct (actions (store σ) !! k) as [action|]; [|done].
  exists action. apply list_elem_of_In in Hk.
  destruct He as [<-|[]]. done.
Qed.

Lemma action_calls_intro σ ns keys k action :
  k ∈ keys -> actions (store σ) !! k = Some action ->
  CallAction k (obj_read k (heap_get (heap σ) ns))
    (state (store σ)) (heap_get (heap σ) (state (store σ)))
  ∈ action_calls σ ns keys.
Proof.
  intros Hk Ha. unfold action_calls. rewrite list_elem_of_In, in_flat_map.
  exists k. split; [by apply list_elem_of_In|]. rewrite Ha. by left.
Qed.

(** The events of the loop are calls of registered actions and at most one
    exception. *)
Lemma keys_calls_inv σ ns keys e :
  e ∈ keys_calls σ ns keys ->
  (exists k, k ∈ keys /\ raises (store σ) k = true /\ e = RaiseTypeError k)
  \/ e ∈ action_calls σ ns keys.
Proof.
  induction keys as [|k r IH]; simpl; [by intros ?%elem_of_nil|].
  unfold key_calls. destruct (raises (store σ) k) eqn:Hr.
  - rewrite app_nil_r, list_elem_of_singleton. intros ->.
    left. exists k. split; [left|done].
  - rewrite elem_of_app. intros [H|H].
    + right. unfold action_calls in *. simpl in *.
      rewrite app_nil_r in H. apply elem_of_app. by left.
    + destruct (IH H) as [(k' & Hk' & Hr' & ->)|Ha].
      * left. exists k'. split; [by right|done].
      * right. unfold action_calls in *. simpl. apply elem_of_app. by right.
Qed.

End Runs.

(** * Reading the state: [getState] *)

Section GetState.

Implicit Types (σ : config) (k : rawkey).


Lemma getState_field k σ :
  key_truthy k = true ->
  result (getState (Some k) σ)
  = FieldValue (obj_read (key_name k) (heap_get (heap σ) (state (store σ)))).
Proof.
  intros Hk. unfold getState, bind, result. simpl. by rewrite Hk.
Qed.



(** The state [{0: 7, 1: 5, "": 8, a: 1}]: the fields named by the empty
    string and by 0 cannot be read through [getState]; the field 1 can, and
    so can [a]; [b] is [undefined], and [toString] is the method that every
    object inherits. *)
Example getState_on_sample_state :
  let σ := {| store := newStore 0 None;
              heap := [[("0", VNum 7); ("1", VNum 5); ("", VNum 8); ("a", VNum 1)]] |} in
  result (getState (Some (KStr "")) σ) = WholeState 0%nat
  /\ result (getState (Some (KNum 0)) σ) = WholeState 0%nat
  /\ result (getState (Some (KNum 1)) σ) = FieldValue (VNum 5)
  /\ result (getState (Some (KStr "1")) σ) = FieldValue (VNum 5)
  /\ result (getState (Some (KStr "a")) σ) = FieldValue (VNum 1)
  /\ result (getState (Some (KStr "b")) σ) = FieldValue VUndefined
  /\ result (getState (Some (KStr "toString")) σ) = FieldValue (VInherited "toString")
  /\ result (getState None σ) = WholeState 0%nat.
Proof. by vm_compute. Qed.

End GetState.

(** * The veto *)

Section Veto.

Implicit Types (σ : config) (ns : loc) (options : dispatch_arg).

(** C7.  When the pre-dispatch hook returns [false], the dispatch ends
    there: the heap (so the state object), the state reference, the
    subscriber registry and the pending-options map are as before, the only
    call made is the one to the hook (no action, no listener, no
    [onChanged], no [afterDispatch]), and the batch counter is one more. *)
Theorem veto_leaves_store_untouched σ ns options hook :
  beforeDispatch (store σ) = Some hook ->
  hook (dispatchBatch (store σ) + 1)%Z (heap_get (heap σ) ns)
    (dispatch_options options σ) = HBool false ->
  let r := dispatch ns options σ in
  result r = None
  /\ heap (final r) = heap σ
  /\ state (store (final r)) = state (store σ)
  /\ listeners (store (final r)) = listeners (store σ)
  /\ dispatchBatchOptionsMap (store (final r)) = dispatchBatchOptionsMap (store σ)
  /\ dispatchBatch (store (final r)) = (dispatchBatch (store σ) + 1)%Z
  /\ final r = started σ
  /\ events r = [CallBeforeDispatch (dispatchBatch (store σ) + 1)%Z ns
                   (heap_get (heap σ) ns) (dispatch_options options σ)].
Proof.
  intros Hhook Hres r.
  assert (Hrun : runBeforeDispatch ns (dispatch_options options σ) (started σ)
                 = (false, started σ,
                    [CallBeforeDispatch (dispatchBatch (store σ) + 1)%Z ns
                       (heap_get (heap σ) ns) (dispatch_options options σ)])).
  { rewrite (runBeforeDispatch_Some _ _ _ hook) by done. simpl.
    by rewrite Hres. }
  assert (Hr : r = (None, started σ,
                    [CallBeforeDispatch (dispatchBatch (store σ) + 1)%Z ns
                       (heap_get (heap σ) ns) (dispatch_options options σ)])).
  { unfold r. rewrite dispatch_stopped.
    - unfold hooked, hook_calls, allowed. by rewrite Hrun.
    - unfold completes, allowed. by rewrite Hrun. }
  by rewrite Hr.
Qed.

End Veto.

(** * Notification *)

Section Notification.

Implicit Types (σ : config) (s : Store) (c : obj) (K : key) (l : Listener).

Lemma listener_calls_spec s c K l :
  CallListener K l ∈ listener_calls s c
  <-> K ∈ obj_keys c /\ registered s (KStr K) l.
Proof.
  unfold listener_calls, registered.
  rewrite list_elem_of_In, in_flat_map. split.
  - intros (k & Hk & He). apply list_elem_of_In in Hk.
    apply in_map_iff in He as (l' & [= <- <-] & Hl).
    apply list_elem_of_In in Hl.
    destruct (listeners s !! KStr k) as [ls|]; simpl in Hl.
    + eauto.
    + by apply elem_of_nil in Hl.
  - intros (Hk & ls & Hls & Hl). exists K. split.
    + by apply list_elem_of_In.
    + rewrite Hls. simpl. apply in_map. by apply list_elem_of_In.
Qed.

Lemma completion_calls_no_listener s batch o K l :
  CallListener K l ∉ completion_calls s batch o.
Proof.
  unfold completion_calls. destruct o as [o|].
  - destruct (onChanged o); try apply not_elem_of_nil.
    by intros [=]%list_elem_of_singleton.
  - by intros [=]%list_elem_of_singleton.
Qed.

Lemma afterDispatch_calls_no_listener s c K l :
  CallListener K l ∉ afterDispatch_calls s c.
Proof.
  unfold afterDispatch_calls. destruct (afterDispatch s).
  - by intros [=]%list_elem_of_singleton.
  - apply not_elem_of_nil.
Qed.

Lemma executeListeners_listener batch c options σ K l :
  CallListener K l ∈ events (executeListeners batch c options σ)
  <-> K ∈ obj_keys c /\ registered (store σ) (KStr K) l.
Proof.
  rewrite executeListeners_run. unfold events. simpl.
  rewrite !elem_of_app, listener_calls_spec.
  pose proof (completion_calls_no_listener (store σ) batch
                (resolved_options batch options σ) K l).
  pose proof (afterDispatch_calls_no_listener (store σ) c K l).
  tauto.
Qed.

Lemma dispatch_listener ns options σ c K l :
  takeOverDispatch (store σ) = false ->
  result (dispatch ns options σ) = Some c ->
  CallListener K l ∈ events (dispatch ns options σ)
  <-> K ∈ obj_keys c /\ registered (store σ) (KStr K) l.
Proof.
  intros Hto [Hp ->]%dispatch_result_Some.
  rewrite dispatch_completes, Hto by done. unfold events at 1. simpl.
  rewrite !elem_of_app, executeListeners_listener.
  unfold applied. simpl. rewrite hooked_store. simpl.
  split; [|tauto].
  intros [H|[H|H]]; [| |done].
  - by apply hook_calls_inv in H as (? & [=]).
  - by apply action_calls_inv in H as (? & ? & ? & ? & [=]).
Qed.

(** Registration: [subscribe] puts the listener into the set of the key,
    the closure it returns takes it out again. *)
Lemma registered_subscribe σ l (K K' : rawkey) l' :
  registered (store (final (subscribe l K σ))) K' l'
  <-> (K' = K /\ l' = l) \/ registered (store σ) K' l'.
Proof.
  unfold registered, subscribe. simpl.
  destruct (decide (K = K')) as [<-|Hne].
  - rewrite lookup_insert_eq. split.
    + intros (ls & [= <-] & Hl). unfold set_add in Hl.
      destruct (decide (l ∈ _)) as [Hin|Hin].
      * right. destruct (listeners (store σ) !! K) as [ls0|]; simpl in *.
        -- eauto.
        -- by apply elem_of_nil in Hl.
      * apply elem_of_app in Hl as [Hl|Hl].
        -- right. destruct (listeners (store σ) !! K) as [ls0|]; simpl in *.
           ++ eauto.
           ++ by apply elem_of_nil in Hl.
        -- apply list_elem_of_singleton in Hl as ->. by left.
    + intros [[_ ->]|(ls & Hls & Hl)]; eexists; (split; [done|]);
        unfold set_add; destruct (decide (l ∈ _)) as [Hin|Hin]; try done.
      * apply elem_of_app. right. by apply list_elem_of_singleton.
      * by rewrite Hls.
      * apply elem_of_app. left. by rewrite Hls.
  - rewrite lookup_insert_ne by done. split; [by right|].
    intros [[? _]|?]; [congruence|done].
Qed.

Lemma registered_unsubscribe σ l (K K' : rawkey) l' :
  registered (store (final (unsubscribe l K σ))) K' l'
  <-> (K' <> K \/ l' <> l) /\ registered (store σ) K' l'.
Proof.
  unfold registered, unsubscribe. simpl.
  destruct (decide (K = K')) as [<-|Hne].
  - rewrite lookup_alter_eq. split.
    + intros (ls & Hls & Hl).
      destruct (listeners (store σ) !! K) as [ls0|]; simpl in Hls; [|done].
      injection Hls as <-. unfold set_delete in Hl.
      apply list_elem_of_filter in Hl as [Hne Hl].
      split; [by right|]. eauto.
    + intros ([?|Hne] & ls & Hls & Hl); [done|].
      rewrite Hls. simpl. eexists. split; [done|].
      unfold set_delete. by apply list_elem_of_filter.
  - rewrite lookup_alter_ne by done. split; [|tauto].
    intros H. split; [|done]. left. congruence.
Qed.

(** The calls of a notification pass depend on the registry through the
    sets it holds for the names of the changed fields. *)
Lemma listener_calls_ext s s' c :
  (forall K, default [] (listeners s' !! KStr K) = default [] (listeners s !! KStr K)) ->
  listener_calls s' c = listener_calls s c.
Proof.
  intros Hext. unfold listener_calls.
  induction (obj_keys c) as [|k r IH]; simpl; [done|].
  by rewrite Hext, IH.
Qed.

(** A notification pass over a changed-field record, be it an explicit
    [executeListeners] call or the pass inside a dispatch that is not
    handed off, calls a listener through the field [K] exactly when [K] is
    an own key of the record and the listener is registered under the
    string [K]. *)
Lemma selective_notification σ :
  (forall batch c options K l,
      CallListener K l ∈ events (executeListeners batch c options σ)
      <-> K ∈ obj_keys c /\ registered (store σ) (KStr K) l)
  /\ (forall ns options c K l,
        takeOverDispatch (store σ) = false ->
        result (dispatch ns options σ) = Some c ->
        CallListener K l ∈ events (dispatch ns options σ)
        <-> K ∈ obj_keys c /\ registered (store σ) (KStr K) l)
  /\ (forall batch c options l,
        (forall K, registered (store σ) (KStr K) l -> K ∉ obj_keys c) ->
        ~ invoked l (events (executeListeners batch c options σ))).
Proof.
  split; [|split].
  - intros. apply executeListeners_listener.
  - intros. by apply dispatch_listener.
  - intros batch c options l Hnone [K HK].
    apply executeListeners_listener in HK as [HK Hreg].
    by apply (Hnone K).
Qed.

(** C3, where the code departs from it.  A listener that subscribes under
    the string [K] is called exactly when [K] is a key of the record.  A
    listener that subscribes under a number is registered, and no pass ever
    calls it through that registration: the [Map] keeps the number, the
    loop asks with the string.  Subscribing under a number changes the calls
    of no notification pass; a dispatch calls the listener only through the
    strings it was registered under before.  On the store [{1: "a"}] with a
    listener subscribed to the field [1] as [useStore([1])] does, the
    dispatch of [{1: "b"}] changes the field and calls nobody, and neither
    does an explicit pass; subscribed under ["1"], the listener is called. *)
Theorem number_key_listener_is_never_called :
  (forall σ l K batch c options,
      CallListener K l
        ∈ events (executeListeners batch c options (final (subscribe l (KStr K) σ)))
      <-> K ∈ obj_keys c)
  /\ (forall σ l n,
        let σ' := final (subscribe l (KNum n) σ) in
        registered (store σ') (KNum n) l
        /\ (forall batch c options,
              events (executeListeners batch c options σ')
              = events (executeListeners batch c options σ))
        /\ (forall ns options c K,
              takeOverDispatch (store σ) = false ->
              result (dispatch ns options σ') = Some c ->
              CallListener K l ∈ events (dispatch ns options σ')
              <-> K ∈ obj_keys c /\ registered (store σ) (KStr K) l))
  /\ (let σ := Scenarios.numbered [("1", VStr "b")] in
      let σ' := final (subscribe 7 (KNum 1) σ) in
      let r := dispatch 1 ArgNone σ' in
      listeners (store σ') !! KNum 1 = Some [7%nat]
      /\ result r = Some [("1", VStr "b")]
      /\ result (getState (Some (KNum 1)) (final r)) = FieldValue (VStr "b")
      /\ events r = []
      /\ events (executeListeners 1 [("1", VStr "b")] (Some Samples.checked) σ') = []
      /\ events (dispatch 1 ArgNone (final (subscribe 7 (KStr "1") σ)))
         = [CallListener "1" 7]).
Proof.
  split; [|split].
  - intros σ l K batch c options. rewrite executeListeners_listener.
    rewrite registered_subscribe. intuition.
  - intros σ l n σ'. split; [|split].
    + apply registered_subscribe. by left.
    + intros batch c options. rewrite !executeListeners_run.
      unfold events. simpl. f_equal.
      apply listener_calls_ext. intros K.
      unfold subscribe. simpl. by rewrite lookup_insert_ne.
    + intros ns options c K Hto Hres.
      rewrite (dispatch_listener ns options σ' c K l) by done.
      unfold σ'. rewrite registered_subscribe. intuition congruence.
  - by vm_compute.
Qed.

End Notification.

(** * The per-key loop *)

Section Loop.

(** The loop of one dispatch: it runs in configuration [σ], reads the
    partial state at [ns] and works under the options [o]. *)
Variables (σ : config) (ns : loc) (o : DispatchOptions).




(** Every key of the changed-set is an input key or a key of what the
    function found for an input key returned. *)
Lemma assign_keys_origin keys acc c k :
  assign_keys σ ns o keys acc = Some c ->
  k ∈ obj_keys c ->
  k ∈ obj_keys acc \/ k ∈ keys \/
  exists k0 ret, k0 ∈ keys /\ returned σ ns k0 = Some ret /\ k ∈ obj_keys ret.
Proof.
  revert acc. induction keys as [|k0 r IH]; intros acc; simpl.
  - intros [= <-]. by left.
  - destruct (contribution σ ns o k0) as [ret0|] eqn:Hc; [|done].
    intros H Hk.
    destruct (IH _ H Hk) as [Hacc|[Hr|(k1 & ret & Hk1 & Hret & Hin)]].
    + apply obj_keys_assign in Hacc as [?|Hin]; [by left|].
      destruct (contribution_cases σ ns o k0 ret0 Hc) as [Hret|[_ [->| ->]]].
      * right; right. exists k0, ret0. split; [left|done].
      * by apply elem_of_nil in Hin.
      * simpl in Hin. apply list_elem_of_singleton in Hin as ->.
        right; left; left.
    + right; left. by right.
    + right; right. exists k1, ret. split; [by right|done].
Qed.

Lemma assign_keys_wf keys acc c :
  assign_keys σ ns o keys acc = Some c -> obj_wf acc -> obj_wf c.
Proof.
  revert acc. induction keys as [|k r IH]; intros acc; simpl.
  - by intros [= <-].
  - destruct (contribution σ ns o k) as [ret|]; [|done].
    intros H Hwf. apply (IH _ H). by apply obj_assign_wf.
Qed.


Section Field.

(** A field [X] for which [this.actions] has no function, and which no
    function called for one of the input keys [keys] writes. *)
Variables (X : key) (keys : list key).
Hypothesis no_callee : callee_of (store σ) X = None.
Hypothesis no_ripple :
  forall k ret, k ∈ keys -> returned σ ns k = Some ret -> X ∉ obj_keys ret.




End Field.

End Loop.

(** * Actions and the [check] option *)

Section Resolution.

Implicit Types (σ : config) (ns : loc) (options : dispatch_arg) (X k : key).


Lemma hooked_actionsObject ns options σ :
  actionsObject (store (hooked ns options σ)) = actionsObject (store σ).
Proof. by rewrite hooked_store. Qed.

Lemma hooked_actions ns options σ :
  actions (store (hooked ns options σ)) = actions (store σ).
Proof. unfold actions. by rewrite hooked_actionsObject. Qed.

Lemma hooked_callee ns options σ k :
  callee_of (store (hooked ns options σ)) k = callee_of (store σ) k.
Proof. unfold callee_of. by rewrite hooked_actions, hooked_actionsObject. Qed.

Lemma hooked_state ns options σ :
  state (store (hooked ns options σ)) = state (store σ).
Proof. by rewrite hooked_store. Qed.

(** Where the keys of a changed-set come from: the keys that [nextState]
    had when [dispatch] was entered, and what the functions that
    [this.actions] has for those keys return.  A key that only the
    pre-dispatch hook puts into [nextState] is not among them. *)
Lemma changed_set_keys_origin ns options σ c k :
  result (dispatch ns options σ) = Some c ->
  k ∈ obj_keys c ->
  k ∈ obj_keys (heap_get (heap σ) ns)
  \/ exists k0 ret,
       k0 ∈ obj_keys (heap_get (heap σ) ns)
       /\ returned (hooked ns options σ) ns k0 = Some ret
       /\ k ∈ obj_keys ret.
Proof.
  intros Hloop%dispatch_result_loop Hk.
  apply (assign_keys_origin _ _ _ _ _ _ k Hloop) in Hk
    as [Hk|[Hk|(k0 & ret & Hk0 & Hret & Hk)]].
  - by apply elem_of_nil in Hk.
  - by left.
  - right. by exists k0, ret.
Qed.

(** Without an actions object, the changed-set has no key beyond those of
    the object that was dispatched, whatever the hook returns. *)
Lemma hook_cannot_extend ns options σ c k :
  actionsObject (store σ) = None ->
  result (dispatch ns options σ) = Some c ->
  k ∈ obj_keys c -> k ∈ obj_keys (heap_get (heap σ) ns).
Proof.
  intros Hnone Hres Hk.
  destruct (changed_set_keys_origin ns options σ c k Hres Hk)
    as [?|(k0 & ret & _ & Hret & _)]; [done|].
  unfold returned in Hret. rewrite hooked_callee in Hret.
  by rewrite callee_of_no_object in Hret.
Qed.



End Resolution.

(** * The state object across a dispatch *)

Section Apply.

Implicit Types (σ : config) (ns : loc) (options : dispatch_arg) (c : obj).

(** Where a dispatch that gets to its end leaves the store and the heap. *)
Lemma dispatch_final ns options σ c :
  result (dispatch ns options σ) = Some c ->
  let σ1 := hooked ns options σ in
  let σ' := final (dispatch ns options σ) in
  heap σ' = heap σ1 ++ [obj_spread (heap_get (heap σ1) (state (store σ))) c]
  /\ state (store σ') = length (heap σ)
  /\ dispatchBatch (store σ') = (dispatchBatch (store σ) + 1)%Z
  /\ listeners (store σ') = listeners (store σ)
  /\ dispatchBatchOptionsMap (store σ') =
       (if takeOverDispatch (store σ)
        then <[(dispatchBatch (store σ) + 1)%Z := dispatch_options options σ]>
               (dispatchBatchOptionsMap (store σ))
        else dispatchBatchOptionsMap (store σ)).
Proof.
  intros [Hp ->]%dispatch_result_Some σ1 σ'. unfold σ', σ1.
  rewrite dispatch_completes by done.
  destruct (takeOverDispatch (store σ)); unfold final, handed_off, applied; simpl;
    rewrite executeListeners_run || idtac; simpl;
    rewrite !hooked_store, hooked_heap_length; simpl; done.
Qed.

Lemma dispatch_final_heap_old ns options σ c l :
  result (dispatch ns options σ) = Some c ->
  (l < length (heap σ))%nat ->
  heap (final (dispatch ns options σ)) !! l = heap (hooked ns options σ) !! l.
Proof.
  intros Hres Hl.
  destruct (dispatch_final ns options σ c Hres) as (-> & _).
  apply lookup_app_l. by rewrite hooked_heap_length.
Qed.

Lemma dispatch_final_heap_new ns options σ c :
  result (dispatch ns options σ) = Some c ->
  heap (final (dispatch ns options σ)) !! length (heap σ) =
    Some (obj_spread (heap_get (heap (hooked ns options σ)) (state (store σ))) c).
Proof.
  intros Hres.
  destruct (dispatch_final ns options σ c Hres) as (-> & _).
  rewrite lookup_app_r; rewrite hooked_heap_length; [|done].
  by rewrite Nat.sub_diag.
Qed.

(** Where a dispatch ends, case by case. *)
Lemma dispatch_final_cases ns options σ :
  final (dispatch ns options σ) =
    if completes ns options σ
    then (if takeOverDispatch (store σ) then handed_off ns options σ
          else applied ns options σ)
    else hooked ns options σ.
Proof.
  destruct (completes ns options σ) eqn:Hp.
  - rewrite dispatch_completes by done.
    by destruct (takeOverDispatch (store σ)).
  - by rewrite dispatch_stopped.
Qed.

(** The calls of a dispatch are those of the hook, those of the loop, and
    those of the notification pass. *)
Lemma dispatch_action_call ns options σ k v st contents :
  CallAction k v st contents ∈ events (dispatch ns options σ) ->
  CallAction k v st contents
  ∈ action_calls (hooked ns options σ) ns (obj_keys (heap_get (heap σ) ns)).
Proof.
  intros Hin. destruct (completes ns options σ) eqn:Hp.
  - rewrite dispatch_completes in Hin by done.
    destruct (takeOverDispatch (store σ)); unfold events in Hin; simpl in Hin.
    + apply elem_of_app in Hin as [H|H]; [|done].
      by apply hook_calls_inv in H as (? & [=]).
    + apply elem_of_app in Hin as [H|H].
      { by apply hook_calls_inv in H as (? & [=]). }
      apply elem_of_app in H as [H|H]; [done|].
      rewrite executeListeners_run in H. simpl in H.
      rewrite !elem_of_app in H. destruct H as [H|[H|H]].
      * apply list_elem_of_In in H. unfold listener_calls in H.
        apply in_flat_map in H as (? & _ & H).
        by apply in_map_iff in H as (? & [=] & _).
      * unfold completion_calls in H. destruct (onChanged _); simpl in H.
        -- by apply elem_of_nil in H.
        -- by apply elem_of_nil in H.
        -- by apply list_elem_of_singleton in H.
      * unfold afterDispatch_calls in H. destruct (afterDispatch _).
        -- by apply list_elem_of_singleton in H.
        -- by apply elem_of_nil in H.
  - rewrite dispatch_stopped in Hin by done. unfold events in Hin. simpl in Hin.
    apply elem_of_app in Hin as [H|H].
    { by apply hook_calls_inv in H as (? & [=]). }
    destruct (allowed ns options σ); [|by apply elem_of_nil in H].
    rewrite loop_calls_eq in H.
    by apply keys_calls_inv in H as [(? & _ & _ & [=])|H].
Qed.

(** C2, as the code has it.  Every dispatch that gets to its end, whatever
    its changed-set, stores a newly created state object: a reference
    different from the one before, holding [{...old, ...changed}].  With an
    empty changed-set the new object has the fields and values of the old
    one, and is still another object.  The old object is not written to
    (unless it is the [nextState] object, which the hook phase may write). *)
Theorem dispatch_replaces_state_object σ ns options c :
  result (dispatch ns options σ) = Some c ->
  (state (store σ) < length (heap σ))%nat ->
  let σ' := final (dispatch ns options σ) in
  let old := heap_get (heap σ') (state (store σ)) in
  state (store σ') = length (heap σ)
  /\ state (store σ') <> state (store σ)
  /\ heap σ' !! state (store σ') = Some (obj_spread old c)
  /\ (obj_keys c = [] -> obj_wf old -> heap_get (heap σ') (state (store σ')) = old)
  /\ (ns <> state (store σ) -> heap σ' !! state (store σ) = heap σ !! state (store σ)).
Proof.
  intros Hres Hlt σ' old.
  destruct (dispatch_final ns options σ c Hres) as (_ & Hst & _).
  fold σ' in Hst.
  assert (Hold : old = heap_get (heap (hooked ns options σ)) (state (store σ))).
  { unfold old, σ', heap_get. by rewrite (dispatch_final_heap_old _ _ _ c). }
  assert (Hnew : heap σ' !! state (store σ') = Some (obj_spread old c)).
  { rewrite Hst, Hold. by apply dispatch_final_heap_new. }
  split; [done|]. split; [lia|]. split; [done|]. split.
  - intros Hc Hwf. unfold heap_get at 1. rewrite Hnew. simpl.
    destruct c; [|done]. by apply obj_spread_empty.
  - intros Hne. unfold σ'. rewrite (dispatch_final_heap_old _ _ _ c) by done.
    by apply hooked_heap_other.
Qed.

(** C9, as the code has it.  Let [seen] be the contents that the state
    object stored when the dispatch began has when the per-key loop starts;
    they are the contents from before the dispatch unless [nextState] is
    that very object.  What a key with a registered action contributes is
    what its action returns for the incoming value and [seen]; every action
    call of the dispatch is for an input key and carries the old state
    reference with the contents [seen].  If the dispatch gets to its end,
    its changed-set is made of the contributions of the input keys, each
    computed from the configuration in which the loop started (so never
    from what earlier keys put into the changed-set) and assigned in turn;
    every input key with an action has been called; and the state is
    replaced once, by one new object that holds [{...seen, ...changed}].
    If it does not, the state is not replaced and no object is created; a
    vetoed dispatch calls no action. *)
Theorem actions_read_the_old_state σ ns options :
  (state (store σ) < length (heap σ))%nat ->
  let r := dispatch ns options σ in
  let σ1 := hooked ns options σ in
  let o := dispatch_options options σ in
  let keys := obj_keys (heap_get (heap σ) ns) in
  let seen := heap_get (heap σ1) (state (store σ)) in
  (ns <> state (store σ) -> seen = heap_get (heap σ) (state (store σ)))
  /\ (forall k action,
        actions (store σ) !! k = Some action ->
        contribution σ1 ns o k
        = Some (action (obj_read k (heap_get (heap σ1) ns)) seen))
  /\ (forall k v st contents,
        CallAction k v st contents ∈ events r ->
        k ∈ keys /\ st = state (store σ) /\ contents = seen)
  /\ (forall c,
        result r = Some c ->
        (exists cs, contributions σ1 ns o keys = Some cs
                    /\ c = fold_left obj_assign cs [])
        /\ (forall k action,
              k ∈ keys -> actions (store σ) !! k = Some action ->
              CallAction k (obj_read k (heap_get (heap σ1) ns))
                (state (store σ)) seen ∈ events r)
        /\ state (store (final r)) = length (heap σ)
        /\ state (store (final r)) <> state (store σ)
        /\ length (heap (final r)) = S (length (heap σ))
        /\ heap (final r) !! state (store (final r)) = Some (obj_spread seen c))
  /\ (result r = None ->
      state (store (final r)) = state (store σ)
      /\ length (heap (final r)) = length (heap σ))
  /\ (allowed ns options σ = false ->
      result r = None
      /\ forall k v st contents, CallAction k v st contents ∉ events r).
Proof.
  intros Hlt r σ1 o keys seen.
  split; [|split; [|split; [|split; [|split]]]].
  - intros Hne. unfold seen, σ1, heap_get. by rewrite hooked_heap_other.
  - intros k action Ha. apply contribution_returned.
    unfold seen, σ1. rewrite <- (hooked_state ns options σ).
    apply returned_action. by rewrite hooked_actions.
  - intros k v st contents Hin.
    apply dispatch_action_call, action_calls_inv in Hin
      as (k' & a & Hk' & _ & [= -> -> -> ->]).
    split; [done|]. by rewrite hooked_state.
  - intros c Hres.
    destruct (dispatch_final ns options σ c Hres) as (Hheap & Hst & _).
    fold r in Hheap, Hst.
    split; [|split; [|split; [|split; [|split]]]].
    + apply assign_keys_contributions. by apply dispatch_result_loop.
    + intros k action Hk Ha.
      assert (Hcall : CallAction k (obj_read k (heap_get (heap σ1) ns))
                        (state (store σ)) seen
                      ∈ action_calls σ1 ns keys).
      { unfold seen. rewrite <- (hooked_state ns options σ).
        apply (action_calls_intro σ1 ns keys k action); [done|].
        unfold σ1. by rewrite hooked_actions. }
      pose proof Hres as [Hp _]%dispatch_result_Some.
      unfold r. rewrite dispatch_completes by done.
      destruct (takeOverDispatch (store σ)); unfold events; simpl;
        rewrite !elem_of_app; tauto.
    + done.
    + lia.
    + rewrite Hheap, length_app, hooked_heap_length. simpl. lia.
    + rewrite Hst. by apply dispatch_final_heap_new.
  - intros Hres. unfold r in *. rewrite dispatch_result in Hres.
    rewrite dispatch_final_cases.
    destruct (completes ns options σ); [done|].
    by rewrite hooked_state, hooked_heap_length.
  - intros Hno.
    assert (Hp : completes ns options σ = false)
      by (unfold completes; by rewrite Hno).
    split.
    + unfold r. by rewrite dispatch_result, Hp.
    + intros k v st contents. unfold r. rewrite dispatch_stopped by done.
      unfold events. simpl. rewrite Hno, app_nil_r.
      by intros (? & [=])%hook_calls_inv.
Qed.

End Apply.

(** * Hand-off mode and the pending-options map *)

Section HandOff.

Implicit Types (σ τ : config) (ns : loc) (options : dispatch_arg) (c : obj).

Lemma dispatch_handoff_events ns options σ c e :
  takeOverDispatch (store σ) = true ->
  result (dispatch ns options σ) = Some c ->
  e ∈ events (dispatch ns options σ) ->
  (exists contents,
      e = CallBeforeDispatch (dispatchBatch (store σ) + 1)%Z ns contents
            (dispatch_options options σ))
  \/ (exists k v contents, e = CallAction k v (state (store σ)) contents).
Proof.
  intros Hto [Hp _]%dispatch_result_Some Hin.
  rewrite dispatch_completes, Hto in Hin by done.
  unfold events in Hin. simpl in Hin.
  apply elem_of_app in Hin as [H|H].
  - left. by apply hook_calls_inv in H.
  - right. apply action_calls_inv in H as (k & a & _ & _ & ->).
    rewrite hooked_state. eauto.
Qed.

(** A notification pass with the options left out, in a configuration
    where the map has an entry for the batch, and the same call again. *)
Lemma executeListeners_consumes τ batch o c c' :
  dispatchBatchOptionsMap (store τ) !! batch = Some o ->
  let r1 := executeListeners batch c None τ in
  let r2 := executeListeners batch c' None (final r1) in
  events r1 = listener_calls (store τ) c
                ++ completion_calls (store τ) batch (Some o)
                ++ afterDispatch_calls (store τ) c
  /\ dispatchBatchOptionsMap (store (final r1)) =
       delete batch (dispatchBatchOptionsMap (store τ))
  /\ dispatchBatchOptionsMap (store (final r1)) !! batch = None
  /\ events r2 = listener_calls (store τ) c' ++ [Warn batch]
                   ++ afterDispatch_calls (store τ) c'
  /\ dispatchBatchOptionsMap (store (final r2)) =
       delete batch (dispatchBatchOptionsMap (store τ)).
Proof.
  intros Hl r1 r2. unfold r2, r1.
  rewrite !executeListeners_run. unfold events, final. simpl.
  rewrite Hl, lookup_delete_eq. simpl.
  repeat split; try done. by rewrite delete_delete_eq.
Qed.

(** C6, as the code has it.  In hand-off mode a dispatch that gets to its
    end replaces the state by [{...old, ...changed}], calls no listener (nor
    [onChanged], nor [afterDispatch]: only the hook and the actions), and
    stores its effective options under its batch number.  In any later
    configuration that still has that entry, [executeListeners] for the
    batch with the options left out calls the listeners of the given
    changed-set, [onChanged] of the stored options and [afterDispatch], and
    removes the entry; the same call again finds nothing: it calls the
    listeners of its changed-set, warns, calls [afterDispatch], and does not
    call [onChanged].  Both calls return: no step of [executeListeners] can
    fail. *)
Theorem handoff_defers_notification σ ns options c :
  takeOverDispatch (store σ) = true ->
  result (dispatch ns options σ) = Some c ->
  let r := dispatch ns options σ in
  let batch := dispatchBatch (store (final r)) in
  let optionsH := dispatch_options options σ in
  batch = (dispatchBatch (store σ) + 1)%Z
  /\ heap (final r) !! state (store (final r)) =
       Some (obj_spread (heap_get (heap (hooked ns options σ)) (state (store σ))) c)
  /\ (forall e, e ∈ events r ->
        (exists contents, e = CallBeforeDispatch batch ns contents optionsH)
        \/ (exists k v contents, e = CallAction k v (state (store σ)) contents))
  /\ dispatchBatchOptionsMap (store (final r)) =
       <[batch := optionsH]> (dispatchBatchOptionsMap (store σ))
  /\ dispatchBatchOptionsMap (store (final r)) !! batch = Some optionsH
  /\ (forall τ changed changed',
        dispatchBatchOptionsMap (store τ) !! batch = Some optionsH ->
        let r1 := executeListeners batch changed None τ in
        let r2 := executeListeners batch changed' None (final r1) in
        events r1 = listener_calls (store τ) changed
                      ++ completion_calls (store τ) batch (Some optionsH)
                      ++ afterDispatch_calls (store τ) changed
        /\ dispatchBatchOptionsMap (store (final r1)) !! batch = None
        /\ events r2 = listener_calls (store τ) changed' ++ [Warn batch]
                         ++ afterDispatch_calls (store τ) changed'
        /\ (forall cb st, CallOnChanged cb st ∉ events r2)).
Proof.
  intros Hto Hres r batch optionsH.
  destruct (dispatch_final ns options σ c Hres) as (_ & Hst & Hb & _ & Hmap).
  fold r in Hst, Hb, Hmap. rewrite Hto in Hmap. fold optionsH in Hmap.
  assert (Hbatch : batch = (dispatchBatch (store σ) + 1)%Z) by done.
  split; [done|]. split; [|split; [|split; [|split]]].
  - rewrite Hst. by apply dispatch_final_heap_new.
  - intros e He. rewrite Hbatch.
    by apply (dispatch_handoff_events ns options σ c e).
  - by rewrite Hbatch.
  - rewrite Hmap, Hbatch. apply lookup_insert_eq.
  - intros τ changed changed' Hl r1 r2.
    destruct (executeListeners_consumes τ batch optionsH changed changed' Hl)
      as (H1 & _ & H2 & H3 & _).
    fold r1 in H1, H2, H3. fold r2 in H3.
    split; [done|]. split; [done|]. split; [done|].
    intros cb st. rewrite H3, !elem_of_app.
    intros [H|[H|H]].
    + apply list_elem_of_In in H. unfold listener_calls in H.
      apply in_flat_map in H as (? & _ & H).
      by apply in_map_iff in H as (? & [=] & _).
    + by apply list_elem_of_singleton in H.
    + unfold afterDispatch_calls in H. destruct (afterDispatch _).
      * by apply list_elem_of_singleton in H.
      * by apply elem_of_nil in H.
Qed.

End HandOff.

Section Pending.

Implicit Types (σ : config) (ops : list op) (pending : gset Z).

Lemma run_cons x ops σ :
  final (run (x :: ops) σ) = final (run ops (final (run_op x σ))).
Proof.
  unfold run. simpl. unfold bind.
  destruct (run_op x σ) as [[[] σ1] e1]. simpl.
  unfold final at 3. simpl.
  by destruct (forEach ops run_op σ1) as [[[] σ2] e2].
Qed.

Lemma dispatch_map ns options σ :
  dispatchBatchOptionsMap (store (final (dispatch ns options σ))) =
    if takeOverDispatch (store σ) && completes ns options σ
    then <[(dispatchBatch (store σ) + 1)%Z := dispatch_options options σ]>
           (dispatchBatchOptionsMap (store σ))
    else dispatchBatchOptionsMap (store σ).
Proof.
  destruct (completes ns options σ) eqn:Hp.
  - assert (Hres : result (dispatch ns options σ) = Some (changed_set ns options σ))
      by (by rewrite dispatch_result, Hp).
    destruct (dispatch_final ns options σ _ Hres) as (_ & _ & _ & _ & ->).
    by destruct (takeOverDispatch (store σ)).
  - rewrite dispatch_stopped by done. unfold final. simpl.
    rewrite hooked_store. simpl. by rewrite andb_false_r.
Qed.

Lemma dispatch_batch ns options σ :
  dispatchBatch (store (final (dispatch ns options σ))) =
    (dispatchBatch (store σ) + 1)%Z.
Proof.
  destruct (completes ns options σ) eqn:Hp.
  - assert (Hres : result (dispatch ns options σ) = Some (changed_set ns options σ))
      by (by rewrite dispatch_result, Hp).
    by destruct (dispatch_final ns options σ _ Hres) as (_ & _ & -> & _).
  - rewrite dispatch_stopped by done. unfold final. simpl.
    by rewrite hooked_store.
Qed.

Lemma run_op_map x σ :
  dispatchBatchOptionsMap (store (final (run_op x σ))) =
    match x with
    | Dispatch ns options =>
        dispatchBatchOptionsMap (store (final (dispatch ns options σ)))
    | ExecuteListeners batch _ None =>
        delete batch (dispatchBatchOptionsMap (store σ))
    | _ => dispatchBatchOptionsMap (store σ)
    end.
Proof.
  destruct x as [ns options|batch c [o|]|l k|l k|[k|]|o|b|h|cb|o|o|l o];
    simpl; try done.
  - unfold bind. by destruct (dispatch ns options σ) as [[? ?] ?].
  - by rewrite executeListeners_run.
  - by rewrite executeListeners_run.
  - unfold getState, bind. simpl. by destruct (key_truthy k).
Qed.

Lemma run_op_dom x σ :
  dom (dispatchBatchOptionsMap (store (final (run_op x σ)))) =
    outstanding_step x σ (dom (dispatchBatchOptionsMap (store σ))).
Proof.
  rewrite run_op_map.
  destruct x as [ns options|batch c [o|]|l k|l k|k|o|b|h|cb|o|o|l o];
    simpl; try done.
  - rewrite dispatch_map. destruct (_ && _); [|done]. by rewrite dom_insert_L.
  - by rewrite dom_delete_L.
Qed.

Lemma run_dom ops σ :
  dom (dispatchBatchOptionsMap (store (final (run ops σ)))) =
    outstanding ops σ (dom (dispatchBatchOptionsMap (store σ))).
Proof.
  revert σ. induction ops as [|x r IH]; intros σ; [done|].
  rewrite run_cons, IH. simpl. by rewrite run_op_dom.
Qed.

Lemma run_op_batch x σ :
  (dispatchBatch (store σ) <= dispatchBatch (store (final (run_op x σ))))%Z.
Proof.
  destruct x as [ns options|batch c [o|]|l k|l k|[k|]|o|b|h|cb|o|o|l o];
    simpl; try done.
  - unfold bind.
    pose proof (dispatch_batch ns options σ) as Hb.
    destruct (dispatch ns options σ) as [[? ?] ?]. unfold final in *.
    simpl in *. lia.
  - by rewrite executeListeners_run.
  - by rewrite executeListeners_run.
  - unfold getState, bind. simpl. by destruct (key_truthy k).
Qed.

Lemma run_op_dispatch_batch ns options σ :
  dispatchBatch (store (final (run_op (Dispatch ns options) σ))) =
    (dispatchBatch (store σ) + 1)%Z.
Proof.
  simpl. unfold bind.
  pose proof (dispatch_batch ns options σ) as Hb.
  by destruct (dispatch ns options σ) as [[? ?] ?].
Qed.

Lemma run_op_bounded x σ :
  batches_bounded σ -> batches_bounded (final (run_op x σ)).
Proof.
  intros [H0 Hdom]. pose proof (run_op_batch x σ) as Hle. split; [lia|].
  intros batch. rewrite run_op_dom.
  remember (dispatchBatch (store (final (run_op x σ)))) as B eqn:HB.
  destruct x as [ns options|b c [o|]|l k|l k|k|o|b|h|cb|o|o|l o]; simpl;
    try (intros Hin%Hdom; lia).
  - rewrite run_op_dispatch_batch in HB. destruct (_ && _).
    + rewrite elem_of_union, elem_of_singleton. intros [->|Hin%Hdom]; lia.
    + intros Hin%Hdom. lia.
  - rewrite elem_of_difference. intros [Hin%Hdom _]. lia.
Qed.

Lemma run_bounded ops σ :
  batches_bounded σ -> batches_bounded (final (run ops σ)).
Proof.
  revert σ. induction ops as [|x r IH]; intros σ Hb; [done|].
  rewrite run_cons. by apply IH, run_op_bounded.
Qed.

(** C8, as the code has it.  Along every sequence of operations on a new
    store, the keys of the pending-options map are the outstanding batches:
    those of the handed-off dispatches that got to their end, less those
    that an [executeListeners] call without options has named since.  A
    dispatch with hand-off mode off leaves the map as it is;
    [executeListeners] without options removes the entry of its batch; with
    options it leaves the map as it is, entry included.  The keys are batch
    numbers that have been handed out. *)
Theorem pending_options_are_outstanding st acts h ops :
  let σ := final (run ops (initial st acts h)) in
  dom (dispatchBatchOptionsMap (store σ)) = outstanding ops (initial st acts h) ∅
  /\ (forall ns options,
        takeOverDispatch (store σ) = false ->
        dispatchBatchOptionsMap (store (final (dispatch ns options σ))) =
          dispatchBatchOptionsMap (store σ))
  /\ (forall batch c,
        dispatchBatchOptionsMap
          (store (final (executeListeners batch c None σ))) !! batch = None)
  /\ (forall batch c o,
        dispatchBatchOptionsMap
          (store (final (executeListeners batch c (Some o) σ))) =
          dispatchBatchOptionsMap (store σ))
  /\ (forall batch, batch ∈ dom (dispatchBatchOptionsMap (store σ)) ->
                    (0 < batch <= dispatchBatch (store σ))%Z).
Proof.
  intros σ. split; [|split; [|split; [|split]]].
  - unfold σ. rewrite run_dom. simpl. by rewrite dom_empty_L.
  - intros ns options Hto. by rewrite dispatch_map, Hto.
  - intros batch c. rewrite executeListeners_run. simpl.
    apply lookup_delete_eq.
  - intros batch c o. by rewrite executeListeners_run.
  - apply run_bounded. split; simpl; [done|].
    intros batch. rewrite dom_empty_L. by intros ?%elem_of_empty.
Qed.

End Pending.

(** * The claims on sample stores *)

Section Instances.

Import Samples Scenarios.

(** C1.  The store [{count: 0, name: "a"}] with a pre-dispatch hook that
    returns [{name: "z"}], and the dispatch of [{count: 1}].  The hook's key
    is merged into the caller's object, but the key list was taken before
    the hook ran: [name] is not in the changed-set, the state keeps
    [name: "a"], and the listener on [name] is not called. *)
Theorem hook_key_misses_the_changed_set :
  let σ := extending [("count", VNum 1)] in
  let r := dispatch 1 ArgNone σ in
  obj_get "name" (heap_get (heap σ) 1) = None
  /\ result r = Some [("count", VNum 1)]
  /\ heap_get (heap (final r)) 1 = [("count", VNum 1); ("name", VStr "z")]
  /\ heap_get (heap (final r)) (state (store (final r)))
     = [("count", VNum 1); ("name", VStr "a")]
  /\ listeners (store σ) !! KStr "name" = Some [2%nat]
  /\ events r
     = [CallBeforeDispatch 1 1 [("count", VNum 1)]
          {| check := Defined false; onChanged := Omitted |};
        CallListener "count" 1;
        CallAfterDispatch 9 [("count", VNum 1)]].
Proof. by vm_compute. Qed.

(** Notification on the sample store: a pass over [{name: "b"}] calls the
    listener of [name] and not the one of [count]; a pass over a field
    nobody listens to calls no listener. *)
Example notify_name_only :
  events (executeListeners 7 [("name", VStr "b")] (Some checked) (plain []))
  = [CallListener "name" 2]
  /\ events (executeListeners 7 [("age", VNum 3)] (Some checked) (plain [])) = []
  /\ events (dispatch 1 ArgNone (plain [("count", VNum 1)]))
     = [CallListener "count" 1].
Proof. by vm_compute. Qed.

(** C2 fails as stated: dispatching [{}] has an empty changed-set and is
    not vetoed, yet the store holds another object afterwards. *)
Lemma empty_dispatch_changes_identity :
  let σ := plain [] in
  let r := dispatch 1 ArgNone σ in
  result r = Some []
  /\ state (store σ) = 0%nat
  /\ state (store (final r)) = 2%nat
  /\ state (store (final r)) <> state (store σ)
  /\ heap_get (heap (final r)) 2 = heap_get (heap σ) 0.
Proof. by vm_compute. Qed.

(** C2 on the sample store: the dispatch of [{}]. *)
Lemma dispatch_replaces_state_object_witness :
  let σ := plain [] in
  let σ' := final (dispatch 1 ArgNone σ) in
  result (dispatch 1 ArgNone σ) = Some []
  /\ (state (store σ) < length (heap σ))%nat
  /\ state (store σ') = 2%nat
  /\ state (store σ') <> state (store σ)
  /\ heap σ' !! state (store σ')
     = Some (obj_spread (heap_get (heap σ') (state (store σ))) []).
Proof.
  intros σ σ'.
  assert (H1 : result (dispatch 1 ArgNone σ) = Some []) by (by vm_compute).
  assert (H2 : (state (store σ) < length (heap σ))%nat) by (simpl; lia).
  destruct (dispatch_replaces_state_object σ 1%nat ArgNone [] H1 H2)
    as (Ha & Hb & Hc & _).
  repeat split; assumption.
Defined.




(** C7 on the sample store with the refusing hook. *)
Lemma veto_leaves_store_untouched_witness :
  let σ := vetoing [("count", VNum 1)] in
  let r := dispatch 1 ArgNone σ in
  beforeDispatch (store σ) = Some (fun _ _ _ => HBool false)
  /\ result r = None
  /\ heap (final r) = heap σ
  /\ state (store (final r)) = state (store σ)
  /\ dispatchBatch (store (final r)) = 1%Z
  /\ events r
     = [CallBeforeDispatch 1 1 [("count", VNum 1)]
          {| check := Defined false; onChanged := Omitted |}].
Proof.
  intros σ r.
  destruct (veto_leaves_store_untouched σ 1%nat ArgNone
              (fun _ _ _ => HBool false) eq_refl eq_refl)
    as (H1 & H2 & H3 & _ & _ & H4 & _ & H5).
  repeat split; assumption.
Defined.

(** C6 fails as stated: in hand-off mode a vetoed dispatch neither
    updates the state nor stores its options; the first notification pass
    for its batch number already finds nothing and warns. *)
Lemma vetoed_handoff_stores_nothing :
  let σ := handoff_vetoing [("count", VNum 1)] in
  let r := dispatch 1 (ArgCallback 5) σ in
  takeOverDispatch (store σ) = true
  /\ result r = None
  /\ state (store (final r)) = state (store σ)
  /\ heap (final r) = heap σ
  /\ dispatchBatch (store (final r)) = 1%Z
  /\ dispatchBatchOptionsMap (store (final r)) !! 1%Z = None
  /\ events (executeListeners 1 [("count", VNum 1)] None (final r))
     = [CallListener "count" 1; Warn 1; CallAfterDispatch 9 [("count", VNum 1)]].
Proof. by vm_compute. Qed.

(** C6 on the sample store in hand-off mode: a dispatch with a bare
    callback, then two notification passes for batch 1. *)
Lemma handoff_defers_notification_witness :
  let σ := handoff [("count", VNum 1)] in
  let r := dispatch 1 (ArgCallback 5) σ in
  let r1 := executeListeners 1 [("count", VNum 1)] None (final r) in
  let r2 := executeListeners 1 [("count", VNum 1)] None (final r1) in
  takeOverDispatch (store σ) = true
  /\ result r = Some [("count", VNum 1)]
  /\ dispatchBatch (store (final r)) = 1%Z
  /\ dispatchBatchOptionsMap (store (final r)) !! 1%Z
     = Some {| check := Defined false; onChanged := Defined 5%nat |}
  /\ dispatchBatchOptionsMap (store (final r1)) !! 1%Z = None
  /\ (forall cb st, CallOnChanged cb st ∉ events r2).
Proof.
  intros σ r r1 r2.
  assert (H1 : takeOverDispatch (store σ) = true) by done.
  assert (H2 : result r = Some [("count", VNum 1)]) by (by vm_compute).
  destruct (handoff_defers_notification σ 1%nat (ArgCallback 5) _ H1 H2)
    as (Hb & _ & _ & _ & Hl & Hnext).
  assert (Hb' : dispatchBatch (store (final r)) = 1%Z) by exact Hb.
  unfold r in Hb'. rewrite Hb' in Hl, Hnext.
  destruct (Hnext (final r) [("count", VNum 1)] [("count", VNum 1)] Hl)
    as (_ & Hgone & _ & Hquiet).
  repeat split; assumption.
Defined.

(** C8 fails as stated: a notification pass that is given its options
    leaves the entry of its batch in the map. *)
Lemma explicit_options_keep_the_entry :
  let σ := handoff [("count", VNum 1)] in
  let σ1 := final (dispatch 1 ArgNone σ) in
  let r2 := executeListeners 1 [("count", VNum 1)] (Some checked) σ1 in
  dispatchBatch (store σ1) = 1%Z
  /\ events r2
     = [CallListener "count" 1; CallAfterDispatch 9 [("count", VNum 1)]]
  /\ dispatchBatchOptionsMap (store (final r2)) !! 1%Z
     = Some {| check := Defined false; onChanged := Omitted |}.
Proof. by vm_compute. Qed.

(** C9 fails as stated, twice over.  A vetoed dispatch does not replace
    the state at all.  And when the dispatched object is the state object
    itself, the hook's result is merged into it before the loop: with the
    state [{count: 0}] and a hook returning [{count: 9}], the action sees
    [count: 9]. *)
Lemma state_not_replaced_or_already_written :
  let σ := vetoing [("count", VNum 1)] in
  let r := dispatch 1 ArgNone σ in
  let r' := dispatch 0 ArgNone echoing in
  (result r = None
   /\ state (store (final r)) = state (store σ)
   /\ heap (final r) = heap σ)
  /\ (heap_get (heap echoing) (state (store echoing)) = [("count", VNum 0)]
      /\ events r'
         = [CallBeforeDispatch 1 0 [("count", VNum 0)]
              {| check := Defined false; onChanged := Omitted |};
            CallAction "count" (VNum 9) 0 [("count", VNum 9)]]
      /\ result r' = Some [("count", VNum 9)]).
Proof. by vm_compute. Qed.

(** C9 on the store [{a: 0, b: 0, total: 1}], where the action of [a]
    writes [total] and the action of [b] reports the [total] it sees: in
    the dispatch of [{a: 5, b: 0}] the changed-set holds [total: 5] when the
    action of [b] runs, and the action still sees [total: 1]. *)
Lemma actions_read_the_old_state_witness :
  let σ := ledger [("a", VNum 5); ("b", VNum 0)] in
  let r := dispatch 1 ArgNone σ in
  let before := [("a", VNum 0); ("b", VNum 0); ("total", VNum 1)] in
  (state (store σ) < length (heap σ))%nat
  /\ result r = Some [("a", VNum 5); ("total", VNum 5); ("b", VNum 1)]
  /\ contribution (hooked 1 ArgNone σ) 1 (dispatch_options ArgNone σ) "b"
     = Some [("b", VNum 1)]
  /\ (forall k v st contents,
        CallAction k v st contents ∈ events r ->
        k ∈ ["a"; "b"] /\ st = 0%nat /\ contents = before)
  /\ (exists cs,
        contributions (hooked 1 ArgNone σ) 1 (dispatch_options ArgNone σ) ["a"; "b"]
        = Some cs
        /\ [("a", VNum 5); ("total", VNum 5); ("b", VNum 1)]
           = fold_left obj_assign cs [])
  /\ CallAction "b" (VNum 0) 0 before ∈ events r
  /\ state (store (final r)) = 2%nat
  /\ heap (final r) !! 2%nat
     = Some [("a", VNum 5); ("b", VNum 1); ("total", VNum 5)].
Proof.
  intros σ r before.
  assert (H1 : result r = Some [("a", VNum 5); ("total", VNum 5); ("b", VNum 1)])
    by (by vm_compute).
  assert (H2 : (state (store σ) < length (heap σ))%nat) by (simpl; lia).
  destruct (actions_read_the_old_state σ 1%nat ArgNone H2)
    as (_ & Hcontrib & Hcalls & Hdone & _ & _).
  destruct (Hdone _ H1) as (Hcs & Hcalled & Hst & _ & _ & Hnew).
  split; [exact H2|]. split; [exact H1|]. split; [|split; [|split; [|split; [|split]]]].
  - exact (Hcontrib "b" see_total eq_refl).
  - exact Hcalls.
  - exact Hcs.
  - apply (Hcalled "b" see_total); [|reflexivity].
    apply list_elem_of_In. simpl. tauto.
  - exact Hst.
  - fold r in Hnew, Hst. rewrite Hst in Hnew. exact Hnew.
Defined.

End Instances.

(** * Subscribing and unsubscribing *)

Section Registry.

Implicit Types (σ : config) (s : Store) (K : rawkey) (l : Listener).

Lemma set_add_elem {A} `{EqDecision A} (x y : A) (ls : list A) :
  y ∈ set_add x ls <-> y = x \/ y ∈ ls.
Proof.
  unfold set_add. destruct (decide (x ∈ ls)) as [Hin|Hin].
  - split; [by right|]. by intros [->|?].
  - rewrite elem_of_app, list_elem_of_singleton. tauto.
Qed.

Lemma set_add_idem {A} `{EqDecision A} (x : A) (ls : list A) :
  set_add x (set_add x ls) = set_add x ls.
Proof.
  unfold set_add at 1. rewrite decide_True; [done|].
  apply set_add_elem. by left.
Qed.

Lemma set_add_NoDup {A} `{EqDecision A} (x : A) (ls : list A) :
  NoDup ls -> NoDup (set_add x ls).
Proof.
  intros Hnd. unfold set_add. destruct (decide (x ∈ ls)); [done|].
  apply NoDup_app. split; [done|]. split.
  - intros y Hy ->%list_elem_of_singleton. done.
  - apply NoDup_singleton.
Qed.

Lemma set_delete_elem {A} `{EqDecision A} (x y : A) (ls : list A) :
  y ∈ set_delete x ls <-> y <> x /\ y ∈ ls.
Proof. unfold set_delete. by rewrite list_elem_of_filter. Qed.

Lemma set_delete_absent {A} `{EqDecision A} (x : A) (ls : list A) :
  x ∉ ls -> set_delete x ls = ls.
Proof.
  intros Hx. unfold set_delete. induction ls as [|y r IH]; [done|].
  apply not_elem_of_cons in Hx as [Hne Hx].
  rewrite filter_cons_True by done. by rewrite IH.
Qed.

Lemma set_delete_idem {A} `{EqDecision A} (x : A) (ls : list A) :
  set_delete x (set_delete x ls) = set_delete x ls.
Proof.
  apply set_delete_absent. rewrite set_delete_elem. tauto.
Qed.

Lemma set_delete_add {A} `{EqDecision A} (x : A) (ls : list A) :
  x ∉ ls -> set_delete x (set_add x ls) = ls.
Proof.
  intros Hx. unfold set_add. rewrite decide_False by done.
  unfold set_delete. rewrite filter_app, filter_cons_False, filter_nil.
  - rewrite app_nil_r. by apply set_delete_absent.
  - by intros ?.
Qed.

Lemma set_delete_NoDup {A} `{EqDecision A} (x : A) (ls : list A) :
  NoDup ls -> NoDup (set_delete x ls).
Proof. apply NoDup_filter. Qed.

(** Subscribing a listener that is already in the set of the key changes
    nothing: the store after the second [subscribe] is the store after the
    first.  Subscribing makes no call and touches no object. *)
Theorem subscribe_again_changes_nothing σ l K :
  final (subscribe l K (final (subscribe l K σ))) = final (subscribe l K σ)
  /\ events (subscribe l K σ) = []
  /\ heap (final (subscribe l K σ)) = heap σ
  /\ (forall batch c options,
        events (executeListeners batch c options
                  (final (subscribe l K (final (subscribe l K σ)))))
        = events (executeListeners batch c options (final (subscribe l K σ)))).
Proof.
  assert (Heq : final (subscribe l K (final (subscribe l K σ)))
                = final (subscribe l K σ)).
  { unfold subscribe, final. simpl. f_equal. unfold set_listeners. simpl.
    f_equal. rewrite lookup_insert_eq. simpl.
    by rewrite set_add_idem, insert_insert_eq. }
  split; [done|]. split; [done|]. split; [done|].
  intros batch c options. by rewrite Heq.
Qed.

(** The closure that [subscribe] returns removes that listener from that
    key and nothing else: every other registration stands, nothing is
    called, no object is touched, and calling it again changes nothing. *)
Theorem unsubscribe_removes_one_registration σ l K :
  let σ' := final (unsubscribe l K σ) in
  ~ registered (store σ') K l
  /\ (forall K' l',
        K' <> K \/ l' <> l ->
        (registered (store σ') K' l' <-> registered (store σ) K' l'))
  /\ final (unsubscribe l K σ') = σ'
  /\ events (unsubscribe l K σ) = []
  /\ heap σ' = heap σ.
Proof.
  intros σ'. split; [|split; [|split; [|split]]]; try done.
  - unfold σ'. rewrite registered_unsubscribe. tauto.
  - intros K' l' Hne. unfold σ'. rewrite registered_unsubscribe. tauto.
  - unfold σ', unsubscribe, final. simpl. f_equal. unfold set_listeners. simpl.
    f_equal. apply map_eq. intros K'.
    destruct (decide (K = K')) as [<-|Hne].
    + rewrite !lookup_alter_eq.
      destruct (listeners (store σ) !! K); simpl; [|done].
      by rewrite set_delete_idem.
    + by rewrite !lookup_alter_ne.
Qed.

(** Subscribing a listener that was not registered under the key and
    unsubscribing it again restores the registrations, and every
    notification pass makes the calls it would have made before: a key
    left with an empty set behaves like a key without a set. *)
Theorem subscribe_unsubscribe_round_trip σ l K :
  ~ registered (store σ) K l ->
  let σ' := final (unsubscribe l K (final (subscribe l K σ))) in
  (forall K' l', registered (store σ') K' l' <-> registered (store σ) K' l')
  /\ (forall batch c options,
        events (executeListeners batch c options σ')
        = events (executeListeners batch c options σ)).
Proof.
  intros Hnot σ'. split.
  - intros K' l'. unfold σ'.
    rewrite registered_unsubscribe, registered_subscribe.
    split; [tauto|]. intros Hreg. split; [|by right].
    destruct (decide (K' = K)) as [->|?]; [|by left].
    right. intros ->. done.
  - intros batch c options. rewrite !executeListeners_run. unfold events. simpl.
    f_equal. apply listener_calls_ext. intros K'.
    unfold σ', unsubscribe, subscribe. simpl.
    destruct (decide (K = KStr K')) as [->|Hne].
    + rewrite lookup_alter_eq, lookup_insert_eq. simpl.
      apply set_delete_add. intros Hin. apply Hnot.
      destruct (listeners (store σ) !! KStr K') as [ls|] eqn:Hls; simpl in Hin.
      * exists ls. done.
      * by apply elem_of_nil in Hin.
    + by rewrite lookup_alter_ne, lookup_insert_ne.
Qed.

End Registry.

(** * Invariants of reachable stores *)

Section Reachable.

Implicit Types (σ : config) (ops : list op) (x : op).

Lemma dispatch_listeners ns options σ :
  listeners (store (final (dispatch ns options σ))) = listeners (store σ).
Proof.
  destruct (completes ns options σ) eqn:Hp.
  - assert (Hres : result (dispatch ns options σ) = Some (changed_set ns options σ))
      by (by rewrite dispatch_result, Hp).
    by destruct (dispatch_final ns options σ _ Hres) as (_ & _ & _ & -> & _).
  - rewrite dispatch_stopped by done. unfold final. simpl.
    by rewrite hooked_store.
Qed.

Lemma run_op_listeners x σ :
  listeners (store (final (run_op x σ))) =
    match x with
    | Subscribe l k =>
        <[k := set_add l (default [] (listeners (store σ) !! k))]>
          (listeners (store σ))
    | Unsubscribe l k => alter (set_delete l) k (listeners (store σ))
    | _ => listeners (store σ)
    end.
Proof.
  destruct x as [ns options|batch c [o|]|l k|l k|[k|]|o|b|h|cb|o|o|l o];
    simpl; try done.
  - unfold bind. pose proof (dispatch_listeners ns options σ) as H.
    by destruct (dispatch ns options σ) as [[? ?] ?].
  - by rewrite executeListeners_run.
  - by rewrite executeListeners_run.
  - unfold getState, bind. simpl. by destruct (key_truthy k).
Qed.

Lemma run_op_registry_sets x σ :
  registry_sets (store σ) -> registry_sets (store (final (run_op x σ))).
Proof.
  intros Hsets K ls. rewrite run_op_listeners.
  destruct x as [ns options|batch c o|l k|l k|k|o|b|h|cb|o|o|l o];
    try apply Hsets.
  - destruct (decide (k = K)) as [->|Hne].
    + rewrite lookup_insert_eq. intros [= <-]. apply set_add_NoDup.
      destruct (listeners (store σ) !! K) as [ls0|] eqn:Hl; simpl.
      * by apply (Hsets K).
      * apply NoDup_nil_2.
    + rewrite lookup_insert_ne by done. apply Hsets.
  - destruct (decide (k = K)) as [->|Hne].
    + rewrite lookup_alter_eq.
      destruct (listeners (store σ) !! K) as [ls0|] eqn:Hl; simpl; [|done].
      intros [= <-]. apply set_delete_NoDup. by apply (Hsets K).
    + rewrite lookup_alter_ne by done. apply Hsets.
Qed.

Lemma run_registry_sets ops σ :
  registry_sets (store σ) -> registry_sets (store (final (run ops σ))).
Proof.
  revert σ. induction ops as [|x r IH]; intros σ Hs; [done|].
  rewrite run_cons. by apply IH, run_op_registry_sets.
Qed.

Lemma listener_calls_NoDup s c :
  registry_sets s -> obj_wf c -> NoDup (listener_calls s c).
Proof.
  intros Hsets [Hnd _]. revert Hnd. unfold listener_calls.
  induction (obj_keys c) as [|k r IH]; intros Hnd; simpl; [apply NoDup_nil_2|].
  apply NoDup_cons in Hnd as [Hk Hnd].
  apply NoDup_app. split; [|split; [|by apply IH]].
  - apply NoDup_fmap_2; [by intros ?? [=]|].
    destruct (listeners s !! KStr k) as [ls|] eqn:Hl; simpl.
    + by apply (Hsets (KStr k)).
    + apply NoDup_nil_2.
  - intros e He Hin. apply list_elem_of_fmap in He as (l & -> & _).
    apply list_elem_of_In, in_flat_map in Hin as (k' & Hk' & Hin).
    apply in_map_iff in Hin as (l' & [= <- _] & _).
    by apply list_elem_of_In in Hk'.
Qed.

(** In a store reached from a new one by any operations, one notification
    pass over a record makes no call twice: every listener is called at
    most once for each changed field, and [onChanged], the warning and
    [afterDispatch] at most once. *)
Theorem notification_calls_once st acts h ops batch c options :
  obj_wf c ->
  let σ := final (run ops (initial st acts h)) in
  NoDup (events (executeListeners batch c options σ)).
Proof.
  intros Hwf σ. rewrite executeListeners_run. unfold events. simpl.
  assert (Hsets : registry_sets (store σ)).
  { apply run_registry_sets. intros K ls. simpl. by rewrite lookup_empty. }
  apply NoDup_app. split; [by apply listener_calls_NoDup|]. split.
  - intros e He Hin.
    apply list_elem_of_In, in_flat_map in He as (k & _ & He).
    apply in_map_iff in He as (l & <- & _).
    apply elem_of_app in Hin as [Hin|Hin].
    + by apply completion_calls_no_listener in Hin.
    + by apply afterDispatch_calls_no_listener in Hin.
  - apply NoDup_app. split; [|split].
    + unfold completion_calls. destruct (resolved_options _ _ _) as [o|].
      * destruct (onChanged o); try apply NoDup_nil_2. apply NoDup_singleton.
      * apply NoDup_singleton.
    + intros e He Hin. unfold afterDispatch_calls in Hin.
      destruct (afterDispatch (store σ)); [|by apply elem_of_nil in Hin].
      apply list_elem_of_singleton in Hin as ->.
      unfold completion_calls in He. destruct (resolved_options _ _ _) as [o|].
      * destruct (onChanged o); try (by apply elem_of_nil in He).
        by apply list_elem_of_singleton in He.
      * by apply list_elem_of_singleton in He.
    + unfold afterDispatch_calls. destruct (afterDispatch (store σ)).
      * apply NoDup_singleton.
      * apply NoDup_nil_2.
Qed.

Lemma run_op_batch_count x σ :
  dispatchBatch (store (final (run_op x σ))) =
    (dispatchBatch (store σ) + (if is_dispatch x then 1 else 0))%Z.
Proof.
  destruct x as [ns options|batch c [o|]|l k|l k|[k|]|o|b|h|cb|o|o|l o];
    try (unfold final; simpl; lia).
  - by rewrite run_op_dispatch_batch.
  - simpl. rewrite executeListeners_run. unfold final. simpl. lia.
  - simpl. rewrite executeListeners_run. unfold final. simpl. lia.
  - simpl. unfold getState, bind, final. simpl.
    destruct (key_truthy k); simpl; lia.
Qed.

(** The batch counter counts the calls of [dispatch], vetoed ones
    included, and nothing else moves it: after any operations on a new store
    it is the number of dispatches among them. *)
Theorem batch_counts_dispatches st acts h ops :
  dispatchBatch (store (final (run ops (initial st acts h)))) =
    Z.of_nat (length (filter (fun x => is_dispatch x = true) ops)).
Proof.
  assert (Hgen : forall σ,
             dispatchBatch (store (final (run ops σ))) =
               (dispatchBatch (store σ)
                + Z.of_nat (length (filter (fun x => is_dispatch x = true) ops)))%Z).
  { induction ops as [|x r IH]; intros σ.
    - simpl. unfold run, final. simpl. lia.
    - rewrite run_cons, IH, run_op_batch_count.
      destruct (is_dispatch x) eqn:Hx.
      + rewrite filter_cons_True by done. simpl length. lia.
      + rewrite filter_cons_False by (by rewrite Hx). lia. }
  rewrite Hgen. simpl. lia.
Qed.

(** The registry never loses the set of a key: a key that has a set,
    empty or not, has one after any further operations. *)
Theorem registry_keeps_its_sets ops σ (K : rawkey) :
  K ∈ dom (listeners (store σ)) ->
  K ∈ dom (listeners (store (final (run ops σ)))).
Proof.
  revert σ. induction ops as [|x r IH]; intros σ HK; [done|].
  rewrite run_cons. apply IH. rewrite run_op_listeners.
  destruct x as [ns options|batch c o|l k|l k|k|o|b|h|cb|o|o|l o]; try done.
  - rewrite dom_insert_L. apply elem_of_union. by right.
  - by rewrite dom_alter_L.
Qed.

End Reachable.

(** * Reading what was written *)

Section ReadBack.

Implicit Types (σ : config) (ns : loc) (options : dispatch_arg) (o c p : obj)
  (k : rawkey) (v : value).

(** The changed-set of a dispatch is a well-formed object. *)
Lemma changed_set_wf ns options σ c :
  result (dispatch ns options σ) = Some c -> obj_wf c.
Proof.
  intros Hloop%dispatch_result_loop.
  apply (assign_keys_wf _ _ _ _ _ _ Hloop), obj_wf_nil.
Qed.

(** After a dispatch that gets to its end, [getState(k)] is the value the
    changed-set has for [k], and for a field outside the changed-set what
    [getState(k)] was before the dispatch.  (The partial state dispatched is
    an object of its own, not the state object.) *)
Theorem dispatch_then_getState σ ns options c k :
  result (dispatch ns options σ) = Some c ->
  (state (store σ) < length (heap σ))%nat ->
  ns <> state (store σ) ->
  obj_wf (heap_get (heap σ) (state (store σ))) ->
  key_truthy k = true ->
  result (getState (Some k) (final (dispatch ns options σ))) =
    match obj_get (key_name k) c with
    | Some v => FieldValue v
    | None => result (getState (Some k) σ)
    end.
Proof.
  intros Hres Hlt Hne Hwf Hk.
  rewrite !getState_field by done.
  destruct (dispatch_final ns options σ c Hres) as (_ & Hst & _).
  pose proof (dispatch_final_heap_new ns options σ c Hres) as Hnew.
  rewrite Hst. unfold heap_get at 1. rewrite Hnew. simpl.
  assert (Hold : heap_get (heap (hooked ns options σ)) (state (store σ))
                 = heap_get (heap σ) (state (store σ))).
  { unfold heap_get. by rewrite hooked_heap_other. }
  rewrite Hold. rewrite obj_read_spread; [|done|by apply (changed_set_wf ns options σ)].
  by destruct (obj_get (key_name k) c).
Qed.


End ReadBack.

(** * More on the dispatch pipeline *)

Section Pipeline.

Implicit Types (σ : config) (ns : loc) (options : dispatch_arg) (c : obj)
  (k X : key).



Lemma completion_calls_Some s s' batch batch' od :
  state s = state s' ->
  completion_calls s batch (Some od) = completion_calls s' batch' (Some od).
Proof. intros Hs. unfold completion_calls. by rewrite Hs. Qed.

(** The calls of a dispatch that gets to its end and is not handed off, in
    order. *)
Lemma dispatch_events_inline ns options σ c :
  takeOverDispatch (store σ) = false ->
  result (dispatch ns options σ) = Some c ->
  events (dispatch ns options σ) =
    hook_calls ns options σ
    ++ action_calls (hooked ns options σ) ns (obj_keys (heap_get (heap σ) ns))
    ++ listener_calls (store σ) c
    ++ completion_calls (set_state (length (heap σ)) (store σ))
         (dispatchBatch (store σ) + 1)%Z (Some (dispatch_options options σ))
    ++ afterDispatch_calls (store σ) c.
Proof.
  intros Hto [Hp ->]%dispatch_result_Some.
  rewrite dispatch_completes, Hto by done. unfold events at 1. simpl.
  rewrite executeListeners_run. unfold events. simpl.
  unfold applied. simpl. rewrite hooked_store, hooked_heap_length. simpl.
  do 3 f_equal.
Qed.



(** A dispatch that gets to its end and is not handed off makes its calls
    in this order: the hook; the actions, in the order of the dispatched
    keys; the listeners, field by field in the order of the changed-set and
    within a field in the order of subscription; [onChanged], with the new
    state object; [afterDispatch], with the changed-set. *)
Theorem dispatch_call_order σ ns options c :
  takeOverDispatch (store σ) = false ->
  result (dispatch ns options σ) = Some c ->
  let r := dispatch ns options σ in
  events r =
    hook_calls ns options σ
    ++ action_calls (hooked ns options σ) ns (obj_keys (heap_get (heap σ) ns))
    ++ listener_calls (store σ) c
    ++ completion_calls (store (final r)) (dispatchBatch (store (final r)))
         (Some (dispatch_options options σ))
    ++ afterDispatch_calls (store σ) c
  /\ (forall cb, onChanged (dispatch_options options σ) = Defined cb ->
        completion_calls (store (final r)) (dispatchBatch (store (final r)))
          (Some (dispatch_options options σ))
        = [CallOnChanged cb (state (store (final r)))])
  /\ state (store (final r)) = length (heap σ).
Proof.
  intros Hto Hres r.
  destruct (dispatch_final ns options σ c Hres) as (_ & Hst & Hb & _).
  fold r in Hst, Hb.
  split; [|split; [|done]].
  - unfold r at 1. rewrite (dispatch_events_inline ns options σ c) by done.
    by rewrite (completion_calls_Some _ (store (final r)) _
                  (dispatchBatch (store (final r)))).
  - intros cb Hcb. unfold completion_calls. by rewrite Hcb.
Qed.

(** Dispatching an object without keys (and not vetoed): the changed-set is
    empty whatever the hook returns, no action and no listener is called,
    yet the state object is replaced, the batch counter moves, and, unless
    the dispatch is handed off, [onChanged] and [afterDispatch] (with the
    empty record) are called. *)
Theorem empty_dispatch σ ns options c :
  obj_keys (heap_get (heap σ) ns) = [] ->
  result (dispatch ns options σ) = Some c ->
  let r := dispatch ns options σ in
  c = []
  /\ state (store (final r)) = length (heap σ)
  /\ dispatchBatch (store (final r)) = (dispatchBatch (store σ) + 1)%Z
  /\ events r =
       hook_calls ns options σ
       ++ (if takeOverDispatch (store σ) then []
           else completion_calls (store (final r)) (dispatchBatch (store (final r)))
                  (Some (dispatch_options options σ))
                ++ afterDispatch_calls (store σ) []).
Proof.
  intros Hkeys Hres r.
  destruct (dispatch_final ns options σ c Hres) as (_ & Hst & Hb & _).
  fold r in Hst, Hb.
  assert (Hc : c = []).
  { apply dispatch_result_loop in Hres. rewrite Hkeys in Hres.
    simpl in Hres. by injection Hres as <-. }
  split; [done|]. split; [done|]. split; [done|].
  destruct (takeOverDispatch (store σ)) eqn:Hto.
  - pose proof Hres as [Hp _]%dispatch_result_Some.
    unfold r. rewrite dispatch_completes, Hto, Hkeys by done.
    unfold events. simpl. done.
  - unfold r at 1. rewrite (dispatch_events_inline ns options σ c) by done.
    rewrite Hkeys, Hc.
    rewrite (completion_calls_Some _ (store (final r)) _
               (dispatchBatch (store (final r)))) by done.
    done.
Qed.

End Pipeline.

(** * What the operations leave alone *)

Section Frame.

Implicit Types (σ : config) (ns : loc) (options : dispatch_arg) (c : obj).

Lemma set_dispatchBatchOptionsMap_same (s : Store) :
  set_dispatchBatchOptionsMap (dispatchBatchOptionsMap s) s = s.
Proof. by destruct s. Qed.

(** [executeListeners] changes nothing but the pending-options map, and of
    the map nothing but the entry of its own batch number; for a batch
    number without an entry the map stays as it is, and if no options were
    passed either, the warning is the only call besides the listeners and
    [afterDispatch]. *)
Theorem executeListeners_touches_its_entry_only σ batch c
    (given : option DispatchOptions) :
  let r := executeListeners batch c given σ in
  heap (final r) = heap σ
  /\ store (final r)
     = set_dispatchBatchOptionsMap (dispatchBatchOptionsMap (store (final r)))
         (store σ)
  /\ (forall b', b' <> batch ->
        dispatchBatchOptionsMap (store (final r)) !! b'
        = dispatchBatchOptionsMap (store σ) !! b')
  /\ (dispatchBatchOptionsMap (store σ) !! batch = None ->
      dispatchBatchOptionsMap (store (final r)) = dispatchBatchOptionsMap (store σ))
  /\ (given = None -> dispatchBatchOptionsMap (store σ) !! batch = None ->
      events r = listener_calls (store σ) c ++ [Warn batch]
                   ++ afterDispatch_calls (store σ) c).
Proof.
  intros r. unfold r. rewrite executeListeners_run. unfold final, events. simpl.
  destruct given as [od|]; simpl.
  - split; [done|]. split; [by rewrite set_dispatchBatchOptionsMap_same|].
    split; [done|]. split; done.
  - split; [done|]. split; [done|]. split; [|split].
    + intros b' Hne. by rewrite lookup_delete_ne.
    + intros Hnone. by apply delete_id.
    + intros _ Hnone. by rewrite Hnone.
Qed.

Lemma dispatch_store_frame ns options σ :
  let s' := store (final (dispatch ns options σ)) in
  actions s' = actions (store σ)
  /\ defaultDispatchOptions s' = defaultDispatchOptions (store σ)
  /\ listeners s' = listeners (store σ)
  /\ takeOverDispatch s' = takeOverDispatch (store σ)
  /\ beforeDispatch s' = beforeDispatch (store σ)
  /\ afterDispatch s' = afterDispatch (store σ).
Proof.
  intros s'. unfold s', actions. rewrite dispatch_final_cases.
  destruct (completes ns options σ); [destruct (takeOverDispatch (store σ)) eqn:Hto|];
    unfold handed_off, applied; simpl; rewrite hooked_store; simpl;
    rewrite ?Hto; done.
Qed.

Lemma dispatch_heap_below ns options σ l :
  (l < length (heap σ))%nat ->
  heap (final (dispatch ns options σ)) !! l = heap (hooked ns options σ) !! l.
Proof.
  intros Hl. rewrite dispatch_final_cases.
  destruct (completes ns options σ); [|done].
  destruct (takeOverDispatch (store σ)); unfold handed_off, applied; simpl;
    apply lookup_app_l; by rewrite hooked_heap_length.
Qed.

Lemma hooked_nextState_keys ns options σ k :
  k ∈ obj_keys (heap_get (heap σ) ns) ->
  k ∈ obj_keys (heap_get (heap (hooked ns options σ)) ns).
Proof.
  intros Hk. unfold hooked.
  destruct (beforeDispatch (store (started σ))) as [hook|] eqn:Hh.
  - rewrite (runBeforeDispatch_Some _ _ _ hook) by done. simpl.
    destruct (hook _ _ _) as [b|res]; simpl; [done|].
    assert (Hns : (ns < length (heap σ))%nat).
    { destruct (decide (ns < length (heap σ))%nat) as [|Hge]; [done|].
      unfold heap_get in Hk. rewrite lookup_ge_None_2 in Hk by lia.
      by apply elem_of_nil in Hk. }
    unfold heap_get at 1. rewrite list_lookup_insert_eq by done. simpl.
    apply obj_keys_assign. by left.
  - by rewrite runBeforeDispatch_None.
Qed.

(** A dispatch, whether it gets to its end or not, leaves the actions, the
    default options, the registry, the hand-off flag and the two hooks as
    they are.  Of the objects that exist it writes at most the dispatched
    one, and from that one it never removes a property; it creates one
    object (the new state) if it gets to its end, and none if it is vetoed
    or cut short. *)
Theorem dispatch_writes_only_nextState σ ns options :
  let r := dispatch ns options σ in
  let s' := store (final r) in
  (actions s' = actions (store σ)
   /\ defaultDispatchOptions s' = defaultDispatchOptions (store σ)
   /\ listeners s' = listeners (store σ)
   /\ takeOverDispatch s' = takeOverDispatch (store σ)
   /\ beforeDispatch s' = beforeDispatch (store σ)
   /\ afterDispatch s' = afterDispatch (store σ))
  /\ (forall l, l <> ns -> (l < length (heap σ))%nat ->
        heap (final r) !! l = heap σ !! l)
  /\ (forall k, k ∈ obj_keys (heap_get (heap σ) ns) ->
        k ∈ obj_keys (heap_get (heap (final r)) ns))
  /\ length (heap (final r)) =
       match result r with
       | Some _ => S (length (heap σ))
       | None => length (heap σ)
       end.
Proof.
  intros r s'. split; [apply dispatch_store_frame|]. split; [|split].
  - intros l Hne Hl. unfold r. rewrite dispatch_heap_below by done.
    by apply hooked_heap_other.
  - intros k Hk.
    assert (Hns : (ns < length (heap σ))%nat).
    { destruct (decide (ns < length (heap σ))%nat) as [|Hge]; [done|].
      unfold heap_get in Hk. rewrite lookup_ge_None_2 in Hk by lia.
      by apply elem_of_nil in Hk. }
    unfold r, heap_get. rewrite dispatch_heap_below by done.
    by apply hooked_nextState_keys.
  - unfold r. rewrite dispatch_result, dispatch_final_cases.
    destruct (completes ns options σ); [|by rewrite hooked_heap_length].
    destruct (takeOverDispatch (store σ)); unfold handed_off, applied; simpl;
      rewrite length_app, hooked_heap_length; simpl; lia.
Qed.

(** Two dispatches in hand-off mode that get to their end: their options
    sit under consecutive batch numbers; notifying the second leaves the
    entry of the first; and when the first is notified, its [onChanged] gets
    the state object of that moment, the one the second dispatch created. *)
Theorem handoff_batches_are_independent σ ns1 o1 ns2 o2 c1 c2 :
  takeOverDispatch (store σ) = true ->
  result (dispatch ns1 o1 σ) = Some c1 ->
  let σ1 := final (dispatch ns1 o1 σ) in
  result (dispatch ns2 o2 σ1) = Some c2 ->
  let σ2 := final (dispatch ns2 o2 σ1) in
  let b := dispatchBatch (store σ) in
  dispatchBatchOptionsMap (store σ2) !! (b + 1)%Z = Some (dispatch_options o1 σ)
  /\ dispatchBatchOptionsMap (store σ2) !! (b + 2)%Z = Some (dispatch_options o2 σ)
  /\ state (store σ2) = S (length (heap σ))
  /\ (forall c,
        let σ3 := final (executeListeners (b + 2)%Z c None σ2) in
        dispatchBatchOptionsMap (store σ3) !! (b + 1)%Z
        = Some (dispatch_options o1 σ)
        /\ dispatchBatchOptionsMap (store σ3) !! (b + 2)%Z = None)
  /\ (forall c cb,
        onChanged (dispatch_options o1 σ) = Defined cb ->
        events (executeListeners (b + 1)%Z c None σ2)
        = listener_calls (store σ) c
            ++ [CallOnChanged cb (state (store σ2))]
            ++ afterDispatch_calls (store σ) c).
Proof.
  intros Hto Hres1 σ1 Hres2 σ2 b.
  destruct (dispatch_final ns1 o1 σ c1 Hres1) as (Hh1 & _ & Hb1 & Hl1 & Hm1).
  destruct (dispatch_store_frame ns1 o1 σ) as (_ & Hd1 & _ & Ht1 & _ & Ha1).
  fold σ1 in Hh1, Hb1, Hl1, Hm1, Hd1, Ht1, Ha1.
  destruct (dispatch_final ns2 o2 σ1 c2 Hres2) as (_ & Hs2 & _ & Hl2 & Hm2).
  destruct (dispatch_store_frame ns2 o2 σ1) as (_ & _ & _ & _ & _ & Ha2).
  fold σ2 in Hs2, Hl2, Hm2, Ha2.
  rewrite Hto in Hm1. rewrite Ht1, Hto, Hb1, Hm1 in Hm2.
  assert (Ho2 : dispatch_options o2 σ1 = dispatch_options o2 σ)
    by (unfold dispatch_options; by rewrite Hd1).
  rewrite Ho2 in Hm2. fold b in Hm2.
  assert (Hlen : length (heap σ1) = S (length (heap σ))).
  { rewrite Hh1, length_app, hooked_heap_length. simpl. lia. }
  assert (Hne : (b + 1 + 1)%Z <> (b + 1)%Z) by lia.
  assert (H12 : (b + 2)%Z = (b + 1 + 1)%Z) by lia.
  split; [|split; [|split; [|split]]].
  - rewrite Hm2, lookup_insert_ne by done. apply lookup_insert_eq.
  - rewrite Hm2, H12. apply lookup_insert_eq.
  - by rewrite Hs2, Hlen.
  - intros c σ3. unfold σ3. rewrite executeListeners_run. unfold final. simpl.
    split.
    + rewrite lookup_delete_ne by lia.
      rewrite Hm2, lookup_insert_ne by done. apply lookup_insert_eq.
    + apply lookup_delete_eq.
  - intros c cb Hcb. rewrite executeListeners_run. unfold events. simpl.
    rewrite Hm2, lookup_insert_ne by done. rewrite lookup_insert_eq.
    unfold completion_calls. rewrite Hcb.
    rewrite (listener_calls_ext (store σ) (store σ2))
      by (intros K; by rewrite Hl2, Hl1).
    unfold afterDispatch_calls. by rewrite Ha2, Ha1.
Qed.

End Frame.

(** * Options and the hook's result *)

Section Options.

Implicit Types (σ : config) (ns : loc) (c : obj) (k X : key).

(** Passing a bare callback to [dispatch] is passing [{onChanged: cb}], and
    passing nothing is passing [{}]: same result, same store and heap, same
    calls.  A property given as [undefined] is not the same as a missing
    one: [{check: undefined}] switches a default [check: true] off. *)
Theorem callback_is_onChanged_option σ ns cb :
  dispatch ns (ArgCallback cb) σ
  = dispatch ns (ArgOptions {| check := Omitted; onChanged := Defined cb |}) σ
  /\ dispatch ns ArgNone σ
     = dispatch ns (ArgOptions {| check := Omitted; onChanged := Omitted |}) σ
  /\ (check_on (defaultDispatchOptions (store σ)) = true ->
      check_on (dispatch_options
                  (ArgOptions {| check := Omitted; onChanged := Defined cb |}) σ)
      = true
      /\ check_on (dispatch_options
                     (ArgOptions {| check := Undefined; onChanged := Omitted |}) σ)
         = false).
Proof.
  assert (H1 : forall d,
             effectiveOptions d (ArgCallback cb)
             = effectiveOptions d
                 (ArgOptions {| check := Omitted; onChanged := Defined cb |}))
    by (by intros []).
  assert (H2 : forall d,
             effectiveOptions d ArgNone
             = effectiveOptions d
                 (ArgOptions {| check := Omitted; onChanged := Omitted |}))
    by (by intros []).
  split; [|split].
  - unfold dispatch, bind. cbn -[effectiveOptions]. by rewrite H1.
  - unfold dispatch, bind. cbn -[effectiveOptions]. by rewrite H2.
  - intros Hd. unfold dispatch_options, effectiveOptions, options_assign, check_on.
    simpl. done.
Qed.

(** Every key of the changed-set of a dispatch is a key the dispatched
    object had when [dispatch] was entered, or a key of what the function
    that [this.actions] has for such a key returned: the record of a
    registered action, or what a method inherited from [Object.prototype]
    gives when it is called as one.  A key that only the pre-dispatch hook
    put into the object is not taken up; without an actions object the
    changed-set has no key beyond the dispatched ones. *)
Theorem changed_set_keys_come_from_input σ ns options c k :
  result (dispatch ns options σ) = Some c ->
  k ∈ obj_keys c ->
  (k ∈ obj_keys (heap_get (heap σ) ns)
   \/ exists k0 ret,
        k0 ∈ obj_keys (heap_get (heap σ) ns)
        /\ returned (hooked ns options σ) ns k0 = Some ret
        /\ k ∈ obj_keys ret)
  /\ (actionsObject (store σ) = None -> k ∈ obj_keys (heap_get (heap σ) ns)).
Proof.
  intros Hres Hk. split.
  - by apply (changed_set_keys_origin ns options σ c k).
  - intros Hnone. by apply (hook_cannot_extend ns options σ c k).
Qed.



End Options.

(** * A call that raises *)

Section Raising.

Implicit Types (σ : config) (ns : loc) (options : dispatch_arg) (k X : key).

Lemma raises_names s k :
  raises s k = true
  <-> actions s !! k = None /\ actionsObject s <> None
      /\ (k = "__defineGetter__" \/ k = "__defineSetter__").
Proof.
  unfold raises, callee_of. destruct (actions s !! k) as [a|].
  { split; [done|]. by intros [[=] _]. }
  destruct (actionsObject s) as [entries|].
  2:{ split; [done|]. by intros (_ & ? & _). }
  unfold inherited_method. simpl.
  repeat (destruct (decide (k = _)) as [->|?];
          [simpl; split; [intros H; try done; repeat split; try done; auto
                         |intros (_ & _ & [H|H]); by inversion H]|]).
  simpl. split; [done|]. intros (_ & _ & [->| ->]); congruence.
Qed.

Lemma assign_keys_raises σ ns o keys acc X :
  X ∈ keys -> raises (store σ) X = true ->
  assign_keys σ ns o keys acc = None.
Proof.
  intros HX Hr. revert acc.
  induction keys as [|k r IH]; intros acc; simpl.
  - by apply elem_of_nil in HX.
  - destruct (contribution σ ns o k) as [ret|] eqn:Hc; [|done].
    apply elem_of_cons in HX as [<-|HX]; [|by apply IH].
    apply (contribution_None σ ns o) in Hr. congruence.
Qed.

Lemma keys_calls_raises σ ns keys X :
  X ∈ keys -> raises (store σ) X = true ->
  exists k, k ∈ keys /\ raises (store σ) k = true
            /\ RaiseTypeError k ∈ keys_calls σ ns keys.
Proof.
  intros HX Hr. induction keys as [|k r IH]; simpl.
  - by apply elem_of_nil in HX.
  - unfold key_calls. destruct (raises (store σ) k) eqn:Hk.
    + exists k. split; [left|]. split; [done|].
      apply elem_of_app. left. by apply list_elem_of_singleton.
    + apply elem_of_cons in HX as [->|HX]; [congruence|].
      destruct (IH HX) as (k' & Hk' & Hr' & Hin).
      exists k'. split; [by right|]. split; [done|].
      apply elem_of_app. by right.
Qed.

(** With an actions object, a dispatched field named [__defineGetter__]
    or [__defineSetter__] that has no registered action makes the dispatch
    call the method of that name that the actions object inherits, with the
    state object where the method wants a function: it raises a
    [TypeError].  The dispatch ends in the loop: the state is not replaced
    and no object is created, the batch counter has moved, the
    pending-options map and the registry are as they were, and no listener,
    [onChanged] or [afterDispatch] is called. *)
Theorem inherited_definer_cuts_dispatch_short σ ns options X :
  allowed ns options σ = true ->
  X ∈ obj_keys (heap_get (heap σ) ns) ->
  actionsObject (store σ) <> None ->
  actions (store σ) !! X = None ->
  X = "__defineGetter__" \/ X = "__defineSetter__" ->
  let r := dispatch ns options σ in
  result r = None
  /\ (exists k, k ∈ obj_keys (heap_get (heap σ) ns)
                /\ (k = "__defineGetter__" \/ k = "__defineSetter__")
                /\ RaiseTypeError k ∈ events r)
  /\ state (store (final r)) = state (store σ)
  /\ length (heap (final r)) = length (heap σ)
  /\ dispatchBatch (store (final r)) = (dispatchBatch (store σ) + 1)%Z
  /\ dispatchBatchOptionsMap (store (final r)) = dispatchBatchOptionsMap (store σ)
  /\ listeners (store (final r)) = listeners (store σ)
  /\ (forall e, e ∈ events r ->
        (exists contents,
            e = CallBeforeDispatch (dispatchBatch (store σ) + 1)%Z ns contents
                  (dispatch_options options σ))
        \/ (exists k v contents, e = CallAction k v (state (store σ)) contents)
        \/ (exists k, e = RaiseTypeError k)).
Proof.
  intros Hallowed HX Hobj Hna Hname r.
  assert (Hr : raises (store (hooked ns options σ)) X = true).
  { apply raises_names. by rewrite hooked_actions, hooked_actionsObject. }
  assert (Hp : completes ns options σ = false).
  { unfold completes. rewrite Hallowed, loop_result_eq. simpl.
    by rewrite (assign_keys_raises _ _ _ _ _ X). }
  unfold r. rewrite dispatch_stopped by done. unfold result, final, events. simpl.
  rewrite Hallowed, loop_calls_eq.
  split; [done|]. split; [|split; [|split; [|split; [|split; [|split]]]]].
  - destruct (keys_calls_raises _ ns _ X HX Hr) as (k & Hk & Hrk & Hin).
    exists k. split; [done|]. split.
    + by apply raises_names in Hrk as (_ & _ & ?).
    + apply elem_of_app. by right.
  - by rewrite hooked_state.
  - by rewrite hooked_heap_length.
  - by rewrite hooked_store.
  - by rewrite hooked_store.
  - by rewrite hooked_store.
  - intros e [H|H]%elem_of_app.
    + left. by apply hook_calls_inv in H.
    + right. apply keys_calls_inv in H as [(k & _ & _ & ->)|H].
      * right. by exists k.
      * left. apply action_calls_inv in H as (k & a & _ & _ & ->).
        rewrite hooked_state. eauto.
Qed.

End Raising.

(** * The further properties on sample stores *)

Section MoreInstances.

Import Samples Scenarios.

Lemma singleton_wf (k : key) (v : value) : obj_wf [(k, v)].
Proof. split; [apply NoDup_singleton|done]. Qed.

Lemma plain_state_wf nextState :
  obj_wf (heap_get (heap (plain nextState)) (state (store (plain nextState)))).
Proof.
  split; [|done]. simpl. apply NoDup_cons. split; [|apply NoDup_singleton].
  by intros [=]%list_elem_of_singleton.
Qed.

(** A listener that subscribes to [count] and unsubscribes again. *)
Lemma subscribe_unsubscribe_round_trip_witness :
  let σ := plain [] in
  let σ' := final (unsubscribe 7 (KStr "count")
                     (final (subscribe 7 (KStr "count") σ))) in
  (registered (store σ') (KStr "count") 1%nat
   <-> registered (store σ) (KStr "count") 1%nat)
  /\ events (executeListeners 1 [("count", VNum 1)] None σ')
     = events (executeListeners 1 [("count", VNum 1)] None σ).
Proof.
  intros σ σ'.
  assert (Hnot : ~ registered (store σ) (KStr "count") 7%nat).
  { intros (ls & Hls & Hl). vm_compute in Hls. injection Hls as <-.
    by apply list_elem_of_singleton in Hl. }
  destruct (subscribe_unsubscribe_round_trip σ 7%nat (KStr "count") Hnot)
    as [H1 H2].
  split; [apply H1 | apply H2].
Defined.

(** A listener subscribed twice is called once. *)
Lemma notification_calls_once_witness :
  obj_wf [("count", VNum 1)]
  /\ NoDup (events (executeListeners 1 [("count", VNum 1)] None
                     (final (run subscriptions
                               (initial 0 None [[("count", VNum 0)]]))))).
Proof.
  pose proof (singleton_wf "count" (VNum 1)) as Hwf.
  split; [exact Hwf|].
  apply (notification_calls_once 0%nat None [[("count", VNum 0)]] subscriptions
           1%Z [("count", VNum 1)] None Hwf).
Defined.

(** The set of [count] outlives its last listener. *)
Lemma registry_keeps_its_sets_witness :
  let σ := plain [] in
  KStr "count" ∈ dom (listeners (store σ))
  /\ KStr "count"
     ∈ dom (listeners (store (final (run [Unsubscribe 1 (KStr "count")] σ)))).
Proof.
  intros σ.
  assert (H : KStr "count" ∈ dom (listeners (store σ))).
  { apply elem_of_dom. exists [1%nat]. by vm_compute. }
  split; [exact H|].
  apply (registry_keeps_its_sets [Unsubscribe 1 (KStr "count")] σ (KStr "count") H).
Defined.

(** [dispatch({count: 1})] on [{count: 0, name: "a"}]. *)
Lemma dispatch_then_getState_witness :
  let σ := plain [("count", VNum 1)] in
  let σ' := final (dispatch 1 ArgNone σ) in
  result (dispatch 1 ArgNone σ) = Some [("count", VNum 1)]
  /\ result (getState (Some (KStr "count")) σ') = FieldValue (VNum 1)
  /\ result (getState (Some (KStr "name")) σ')
     = result (getState (Some (KStr "name")) σ)
  /\ result (getState (Some (KStr "valueOf")) σ')
     = result (getState (Some (KStr "valueOf")) σ).
Proof.
  intros σ σ'.
  assert (H1 : result (dispatch 1 ArgNone σ) = Some [("count", VNum 1)])
    by (by vm_compute).
  assert (H2 : (state (store σ) < length (heap σ))%nat) by (simpl; lia).
  assert (H3 : 1%nat <> state (store σ)) by (simpl; lia).
  pose proof (plain_state_wf [("count", VNum 1)]) as H4.
  split; [exact H1|]. split; [|split].
  - exact (dispatch_then_getState σ 1%nat ArgNone _ (KStr "count")
             H1 H2 H3 H4 eq_refl).
  - exact (dispatch_then_getState σ 1%nat ArgNone _ (KStr "name")
             H1 H2 H3 H4 eq_refl).
  - exact (dispatch_then_getState σ 1%nat ArgNone _ (KStr "valueOf")
             H1 H2 H3 H4 eq_refl).
Defined.




(** A dispatch of [{b: 1, c: 5}] with a bare callback on the store where
    the action of [c] returns [{c: v, 1: v}]: in the changed-set the field
    [1] comes first, so its listener is called before the one of [b]. *)
Lemma dispatch_call_order_witness :
  let σ := indexed [("b", VNum 1); ("c", VNum 5)] in
  let r := dispatch 1 (ArgCallback 5) σ in
  let c := [("1", VNum 5); ("b", VNum 1); ("c", VNum 5)] in
  takeOverDispatch (store σ) = false
  /\ result r = Some c
  /\ events r
     = hook_calls 1 (ArgCallback 5) σ
       ++ action_calls (hooked 1 (ArgCallback 5) σ) 1 (obj_keys (heap_get (heap σ) 1))
       ++ listener_calls (store σ) c
       ++ [CallOnChanged 5 2]
       ++ afterDispatch_calls (store σ) c
  /\ events r
     = [CallAction "c" (VNum 5) 0 [("b", VNum 0); ("c", VNum 0)];
        CallListener "1" 3;
        CallListener "b" 1;
        CallListener "c" 2;
        CallOnChanged 5 2;
        CallAfterDispatch 9 c].
Proof.
  intros σ r c.
  assert (H1 : takeOverDispatch (store σ) = false) by done.
  assert (H2 : result r = Some c) by (by vm_compute).
  destruct (dispatch_call_order σ 1%nat (ArgCallback 5) _ H1 H2) as (Ha & Hb & Hc).
  split; [exact H1|]. split; [exact H2|]. split.
  - fold r in Ha, Hb, Hc. rewrite Ha, (Hb 5%nat eq_refl), Hc. reflexivity.
  - by vm_compute.
Defined.

(** [dispatch({}, cb)] on the store with a hook that returns [{name: "z"}]. *)
Lemma empty_dispatch_witness :
  let σ := extending [] in
  let r := dispatch 1 (ArgCallback 5) σ in
  obj_keys (heap_get (heap σ) 1) = []
  /\ result r = Some []
  /\ state (store (final r)) = 2%nat
  /\ dispatchBatch (store (final r)) = 1%Z
  /\ events r
     = [CallBeforeDispatch 1 1 []
          {| check := Defined false; onChanged := Defined 5%nat |};
        CallOnChanged 5 2;
        CallAfterDispatch 9 []].
Proof.
  intros σ r.
  assert (H1 : obj_keys (heap_get (heap σ) 1) = []) by done.
  assert (H2 : result r = Some []) by (by vm_compute).
  destruct (empty_dispatch σ 1%nat (ArgCallback 5) [] H1 H2) as (_ & Ha & Hb & _).
  split; [exact H1|]. split; [exact H2|]. split; [exact Ha|]. split; [exact Hb|].
  by vm_compute.
Defined.

(** Two dispatches in hand-off mode, the first with a callback. *)
Lemma handoff_batches_are_independent_witness :
  let σ := handoff [("count", VNum 1)] in
  let σ1 := final (dispatch 1 (ArgCallback 5) σ) in
  let σ2 := final (dispatch 1 ArgNone σ1) in
  takeOverDispatch (store σ) = true
  /\ dispatchBatchOptionsMap (store σ2) !! 1%Z
     = Some {| check := Defined false; onChanged := Defined 5%nat |}
  /\ dispatchBatchOptionsMap (store σ2) !! 2%Z
     = Some {| check := Defined false; onChanged := Omitted |}
  /\ state (store σ2) = 3%nat
  /\ events (executeListeners 1 [("count", VNum 1)] None σ2)
     = [CallListener "count" 1; CallOnChanged 5 3;
        CallAfterDispatch 9 [("count", VNum 1)]].
Proof.
  intros σ σ1 σ2.
  assert (H1 : takeOverDispatch (store σ) = true) by done.
  assert (H2 : result (dispatch 1 (ArgCallback 5) σ) = Some [("count", VNum 1)])
    by (by vm_compute).
  assert (H3 : result (dispatch 1 ArgNone σ1) = Some [("count", VNum 1)])
    by (by vm_compute).
  destruct (handoff_batches_are_independent σ 1%nat (ArgCallback 5) 1%nat ArgNone
              _ _ H1 H2 H3) as (Ha & Hb & Hc & _ & Hd).
  split; [exact H1|]. split; [exact Ha|]. split; [exact Hb|]. split; [exact Hc|].
  exact (Hd [("count", VNum 1)] 5%nat eq_refl).
Defined.

(** On the store with the actions object [{count: ripple}], the dispatch
    of [{valueOf: 1}] has the changed-set [{count: ripple}]: [count] is a
    key of what the inherited [valueOf] returns.  On the store with a hook
    that returns [{name: "z"}] and no actions, the changed-set of
    [{count: 1}] has the dispatched key only. *)
Lemma changed_set_keys_come_from_input_witness :
  let σ := rippling [("valueOf", VNum 1)] in
  let τ := extending [("count", VNum 1)] in
  (result (dispatch 1 ArgNone σ) = Some [("count", VAction "count")]
   /\ ("count" ∉ obj_keys (heap_get (heap σ) 1))
   /\ returned (hooked 1 ArgNone σ) 1 "valueOf" = Some [("count", VAction "count")]
   /\ ("count" ∈ obj_keys (heap_get (heap σ) 1)
       \/ exists k0 ret,
            k0 ∈ obj_keys (heap_get (heap σ) 1)
            /\ returned (hooked 1 ArgNone σ) 1 k0 = Some ret
            /\ "count" ∈ obj_keys ret))
  /\ (result (dispatch 1 ArgNone τ) = Some [("count", VNum 1)]
      /\ "count" ∈ obj_keys (heap_get (heap τ) 1)).
Proof.
  intros σ τ.
  assert (H1 : result (dispatch 1 ArgNone σ) = Some [("count", VAction "count")])
    by (by vm_compute).
  assert (H2 : "count" ∈ obj_keys [("count", VAction "count")])
    by (apply list_elem_of_In; simpl; tauto).
  assert (H3 : result (dispatch 1 ArgNone τ) = Some [("count", VNum 1)])
    by (by vm_compute).
  assert (H4 : "count" ∈ obj_keys [("count", VNum 1)])
    by (apply list_elem_of_In; simpl; tauto).
  split.
  - split; [exact H1|]. split.
    + simpl. by intros [=]%list_elem_of_singleton.
    + split; [by vm_compute|].
      exact (proj1 (changed_set_keys_come_from_input σ 1%nat ArgNone _ "count" H1 H2)).
  - split; [exact H3|].
    exact (proj2 (changed_set_keys_come_from_input τ 1%nat ArgNone _ "count" H3 H4)
             eq_refl).
Defined.


(** On the store with the actions object [{count: ripple}], the dispatch
    of [{count: 1, __defineGetter__: 1, name: "q"}] calls the action of
    [count], raises at the second key and never gets to [name]: the state
    stays as it was, and nobody is notified. *)
Lemma inherited_definer_cuts_dispatch_short_witness :
  let σ := rippling [("count", VNum 1); ("__defineGetter__", VNum 1);
                     ("name", VStr "q")] in
  let r := dispatch 1 ArgNone σ in
  result r = None
  /\ state (store (final r)) = state (store σ)
  /\ heap (final r) = heap σ
  /\ dispatchBatch (store (final r)) = 1%Z
  /\ events r
     = [CallAction "count" (VNum 1) 0 [("count", VNum 0); ("name", VStr "a")];
        RaiseTypeError "__defineGetter__"].
Proof.
  intros σ r.
  assert (H1 : allowed 1 ArgNone σ = true) by done.
  assert (H2 : "__defineGetter__" ∈ obj_keys (heap_get (heap σ) 1))
    by (apply list_elem_of_In; simpl; tauto).
  assert (H3 : actionsObject (store σ) <> None) by done.
  assert (H4 : actions (store σ) !! "__defineGetter__" = None) by done.
  destruct (inherited_definer_cuts_dispatch_short σ 1%nat ArgNone
              "__defineGetter__" H1 H2 H3 H4 (or_introl eq_refl))
    as (Ha & _ & Hb & _ & Hc & _).
  split; [exact Ha|]. split; [exact Hb|]. split; [by vm_compute|].
  split; [exact Hc|]. by vm_compute.
Defined.

End MoreInstances.
